(** * Gateway reliability layer: circuit breaker, sliding-window limiter,
      node registry.

    Shallow embedding of [src/gateway/circuit-breaker.ts] and
    [src/gateway/rate-limiter.ts], and of the node registry as the design
    document describes it.

    Conventions.
    - A JavaScript [number] holding a millisecond timestamp or a counter is
      a [Z]; [Date.now()] is an explicit argument [now] of every operation
      that reads the clock (one reading per synchronous segment).
    - [number | null] is [option Z]; [x ?? y] is [default y x].
    - A [Map<string, _>] is a [gmap string _]; an array is a [list].
    - A callback is a transformer of an outside world [W]; a mock such as
      [vi.fn()] is the transformer that records its arguments. *)

From Stdlib Require Import ZArith Lia.
From stdpp Require Import base option list gmap strings.

Local Open Scope Z_scope.

(* ===================================================================== *)
(** ** circuit-breaker.ts                                                 *)
(* ===================================================================== *)

Module CircuitBreaker.

(** [const enum CircuitState]. *)
Inductive CircuitState : Set := CLOSED | OPEN | HALF_OPEN.

#[global] Instance CircuitState_eq_dec : EqDecision CircuitState.
Proof. solve_decision. Defined.

(** [class CircuitOpenError]: the two payload fields of the constructor. *)
Record CircuitOpenError : Set := mkCircuitOpenError {
  err_state : CircuitState;
  retryAfterMs : Z
}.

(** [type CircuitBreakerStats]. *)
Record CircuitBreakerStats : Set := mkStats {
  stats_state : CircuitState;
  stats_failures : Z;
  stats_successes : Z;
  stats_lastFailureMs : option Z;
  stats_consecutiveFailures : Z
}.

(** The private fields of [class CircuitBreaker]. *)
Record Breaker : Set := mkBreaker {
  state : CircuitState;
  failures : Z;
  successes : Z;
  consecutiveFailures : Z;
  lastFailureMs : option Z;
  openedAtMs : option Z;
  halfOpenInflight : Z
}.

(** Field initialisers of the class. *)
Definition initial : Breaker :=
  {| state := CLOSED; failures := 0; successes := 0; consecutiveFailures := 0;
     lastFailureMs := None; openedAtMs := None; halfOpenInflight := 0 |}.

Definition set_state (v : CircuitState) (b : Breaker) : Breaker :=
  {| state := v; failures := failures b; successes := successes b;
     consecutiveFailures := consecutiveFailures b;
     lastFailureMs := lastFailureMs b; openedAtMs := openedAtMs b;
     halfOpenInflight := halfOpenInflight b |}.

Definition set_failures (v : Z) (b : Breaker) : Breaker :=
  {| state := state b; failures := v; successes := successes b;
     consecutiveFailures := consecutiveFailures b;
     lastFailureMs := lastFailureMs b; openedAtMs := openedAtMs b;
     halfOpenInflight := halfOpenInflight b |}.

Definition set_successes (v : Z) (b : Breaker) : Breaker :=
  {| state := state b; failures := failures b; successes := v;
     consecutiveFailures := consecutiveFailures b;
     lastFailureMs := lastFailureMs b; openedAtMs := openedAtMs b;
     halfOpenInflight := halfOpenInflight b |}.

Definition set_consecutiveFailures (v : Z) (b : Breaker) : Breaker :=
  {| state := state b; failures := failures b; successes := successes b;
     consecutiveFailures := v;
     lastFailureMs := lastFailureMs b; openedAtMs := openedAtMs b;
     halfOpenInflight := halfOpenInflight b |}.

Definition set_lastFailureMs (v : option Z) (b : Breaker) : Breaker :=
  {| state := state b; failures := failures b; successes := successes b;
     consecutiveFailures := consecutiveFailures b;
     lastFailureMs := v; openedAtMs := openedAtMs b;
     halfOpenInflight := halfOpenInflight b |}.

Definition set_openedAtMs (v : option Z) (b : Breaker) : Breaker :=
  {| state := state b; failures := failures b; successes := successes b;
     consecutiveFailures := consecutiveFailures b;
     lastFailureMs := lastFailureMs b; openedAtMs := v;
     halfOpenInflight := halfOpenInflight b |}.

Definition set_halfOpenInflight (v : Z) (b : Breaker) : Breaker :=
  {| state := state b; failures := failures b; successes := successes b;
     consecutiveFailures := consecutiveFailures b;
     lastFailureMs := lastFailureMs b; openedAtMs := openedAtMs b;
     halfOpenInflight := v |}.

(** What a synchronous segment of [execute] ends in: a [throw] of a
    [CircuitOpenError], or a normal return. *)
Inductive Outcome (A : Type) : Type :=
| Thrown (e : CircuitOpenError)
| Returned (a : A).
Arguments Thrown {A} e.
Arguments Returned {A} a.

Section WithWorld.

(** The world outside the breaker, on which the observer callback and the
    guarded function act. *)
Context {W : Type}.

(** [type CircuitBreakerConfig]; [onStateChange?] is optional. *)
Record CircuitBreakerConfig : Type := mkConfig {
  failureThreshold : Z;
  resetTimeoutMs : Z;
  halfOpenMaxAttempts : Z;
  onStateChange : option (CircuitState -> CircuitState -> W -> W)
}.

(** The breaker object together with the world its callbacks touch. *)
Definition Sys : Type := Breaker * W.

(** [private transition(to)]. *)
Definition transition (cfg : CircuitBreakerConfig) (to : CircuitState)
    (s : Sys) : Sys :=
  let from := state s.1 in
  (set_state to s.1,
   match onStateChange cfg with
   | Some f => f from to s.2
   | None => s.2
   end).

(** [private onSuccess()]. *)
Definition onSuccess (cfg : CircuitBreakerConfig) (s : Sys) : Sys :=
  let s := (set_successes (successes s.1 + 1) s.1, s.2) in
  if decide (state s.1 = HALF_OPEN) then
    let s := (set_halfOpenInflight (halfOpenInflight s.1 - 1) s.1, s.2) in
    let s := transition cfg CLOSED s in
    let s := (set_consecutiveFailures 0 s.1, s.2) in
    (set_halfOpenInflight 0 s.1, s.2)
  else
    (set_consecutiveFailures 0 s.1, s.2).

(** [private onFailure()]. *)
Definition onFailure (cfg : CircuitBreakerConfig) (now : Z) (s : Sys) : Sys :=
  let s := (set_failures (failures s.1 + 1) s.1, s.2) in
  let s := (set_consecutiveFailures (consecutiveFailures s.1 + 1) s.1, s.2) in
  let s := (set_lastFailureMs (Some now) s.1, s.2) in
  if decide (state s.1 = HALF_OPEN) then
    let s := (set_halfOpenInflight (halfOpenInflight s.1 - 1) s.1, s.2) in
    let s := transition cfg OPEN s in
    (set_openedAtMs (Some now) s.1, s.2)
  else if decide (state s.1 = CLOSED) then
    if failureThreshold cfg <=? consecutiveFailures s.1 then
      let s := transition cfg OPEN s in
      (set_openedAtMs (Some now) s.1, s.2)
    else s
  else s.

(** Code that mutates the system and may throw: the state reached so far
    survives the [throw]. *)
Definition M (A : Type) : Type := Sys -> Outcome A * Sys.

Definition ret {A : Type} (a : A) : M A := fun s => (Returned a, s).
Definition throw {A : Type} (e : CircuitOpenError) : M A := fun s => (Thrown e, s).
Definition modify (f : Sys -> Sys) : M unit := fun s => (Returned tt, f s).
Definition bind {A B : Type} (m : M A) (k : A -> M B) : M B :=
  fun s =>
    match m s with
    | (Thrown e, s') => (Thrown e, s')
    | (Returned a, s') => k a s'
    end.

Notation "m >> k" := (bind m (fun _ => k))
  (at level 65, right associativity, only parsing).

(** [Date.now() - (this.openedAtMs ?? Date.now())]. *)
Definition elapsedSinceOpen (now : Z) (b : Breaker) : Z :=
  now - default now (openedAtMs b).

(** First [if] of [execute]: the OPEN gate. *)
Definition openGate (cfg : CircuitBreakerConfig) (now : Z) : M unit :=
  fun s =>
    if decide (state s.1 = OPEN) then
      let elapsed := elapsedSinceOpen now s.1 in
      if resetTimeoutMs cfg <=? elapsed then
        modify (transition cfg HALF_OPEN) s
      else
        throw (mkCircuitOpenError OPEN (resetTimeoutMs cfg - elapsed)) s
    else ret tt s.

(** Second [if] of [execute]: the HALF_OPEN gate. *)
Definition halfOpenGate (cfg : CircuitBreakerConfig) (now : Z) : M unit :=
  fun s =>
    if decide (state s.1 = HALF_OPEN) then
      if halfOpenMaxAttempts cfg <=? halfOpenInflight s.1 then
        let remaining := resetTimeoutMs cfg - elapsedSinceOpen now s.1 in
        throw (mkCircuitOpenError OPEN (Z.max 0 remaining)) s
      else
        modify (fun s => (set_halfOpenInflight (halfOpenInflight s.1 + 1) s.1, s.2)) s
    else ret tt s.

(** The call [fn()] on line 104: [fn] starts its work on the world and
    hands back a promise. *)
Definition callFn (fn : W -> W) : M unit :=
  modify (fun s => (s.1, fn s.2)).

(** The synchronous prefix of [execute(fn)], up to and including the call
    [fn()]. [Thrown e] is the rejection with a [CircuitOpenError];
    [Returned tt] means [fn] was called and its promise is awaited. *)
Definition execute_begin (cfg : CircuitBreakerConfig) (now : Z) (fn : W -> W)
    : M unit :=
  openGate cfg now >> halfOpenGate cfg now >> callFn fn.

(** [getState()] and [getStats()]. *)
Definition getState (s : Sys) : CircuitState := state s.1.

Definition getStats (s : Sys) : CircuitBreakerStats :=
  {| stats_state := state s.1;
     stats_failures := failures s.1;
     stats_successes := successes s.1;
     stats_lastFailureMs := lastFailureMs s.1;
     stats_consecutiveFailures := consecutiveFailures s.1 |}.

(** [reset()]: four plain field assignments. *)
Definition reset (s : Sys) : Sys :=
  let b := set_state CLOSED s.1 in
  let b := set_consecutiveFailures 0 b in
  let b := set_halfOpenInflight 0 b in
  (set_openedAtMs None b, s.2).

(** The atomic steps an event loop interleaves on one breaker: the
    synchronous prefix of an [execute] call, the continuation after the
    awaited promise fulfils ([onSuccess]) or rejects ([onFailure]), and
    [reset]. *)
Inductive Op : Type :=
| OpExecute (fn : W -> W)
| OpFulfilled
| OpRejected
| OpReset.

Definition step (cfg : CircuitBreakerConfig) (now : Z) (o : Op) (s : Sys) : Sys :=
  match o with
  | OpExecute fn => (execute_begin cfg now fn s).2
  | OpFulfilled => onSuccess cfg s
  | OpRejected => onFailure cfg now s
  | OpReset => reset s
  end.

(** A schedule: each step with the clock reading at which it runs. *)
Fixpoint run (cfg : CircuitBreakerConfig) (sched : list (Z * Op)) (s : Sys) : Sys :=
  match sched with
  | [] => s
  | (now, o) :: rest => run cfg rest (step cfg now o s)
  end.

(** Clock readings never go backwards along the schedule, starting at [t]. *)
Fixpoint monotone (t : Z) (sched : list (Z * Op)) : Prop :=
  match sched with
  | [] => True
  | (now, _) :: rest => t <= now /\ monotone now rest
  end.

(** Clock reading after the schedule. *)
Fixpoint clockAfter (t : Z) (sched : list (Z * Op)) : Z :=
  match sched with
  | [] => t
  | (now, _) :: rest => clockAfter now rest
  end.

(** One whole call whose promise settles before anything else touches the
    breaker: [await cb.execute(fn)] in a sequential test. [ok] tells
    whether the promise fulfils; [later] is the clock when it settles. *)
Definition execute (cfg : CircuitBreakerConfig) (now later : Z)
    (fn : W -> W) (ok : bool) : M bool := fun s =>
  match execute_begin cfg now fn s with
  | (Thrown e, s') => (Thrown e, s')
  | (Returned _, s') =>
      (Returned ok, if ok then onSuccess cfg s' else onFailure cfg later s')
  end.

(** The open timestamp, when there is one, is a past reading of the clock. *)
Definition openedInPast (t : Z) (s : Sys) : Prop :=
  forall o, openedAtMs s.1 = Some o -> o <= t.

(** A breaker that is HALF_OPEN at clock [t] got there from OPEN after the
    reset timeout had elapsed, and still holds that open timestamp. *)
Definition ripe (cfg : CircuitBreakerConfig) (t : Z) (s : Sys) : Prop :=
  state s.1 = HALF_OPEN -> resetTimeoutMs cfg <= elapsedSinceOpen t s.1.

(** A burst of calls with no settlement in between: how many of them are
    admitted as probes, that is, let through to [fn] by a breaker that is
    HALF_OPEN when it lets them through. *)
Fixpoint probesAdmitted (cfg : CircuitBreakerConfig) (calls : list (Z * (W -> W)))
    (s : Sys) : nat :=
  match calls with
  | [] => O
  | (now, fn) :: rest =>
      match execute_begin cfg now fn s with
      | (Returned _, s') =>
          ((if decide (state s'.1 = HALF_OPEN) then 1 else 0)
           + probesAdmitted cfg rest s')%nat
      | (Thrown _, s') => probesAdmitted cfg rest s'
      end
  end.

(** How the probe counter stands in each state when at least one probe is
    allowed: never negative, never above the bound, at least one while
    HALF_OPEN, and a free slot otherwise. *)
Definition probeSlots (cfg : CircuitBreakerConfig) (s : Sys) : Prop :=
  0 <= halfOpenInflight s.1 <= halfOpenMaxAttempts cfg
  /\ (state s.1 = HALF_OPEN -> 1 <= halfOpenInflight s.1)
  /\ (state s.1 <> HALF_OPEN -> halfOpenInflight s.1 <= halfOpenMaxAttempts cfg - 1).

(** [times] calls in a row, each one awaited before the next, whose
    guarded function rejects; the clock reads [t] during each call. *)
Fixpoint failuresInARow (cfg : CircuitBreakerConfig) (fn : W -> W)
    (times : list Z) (s : Sys) : Sys :=
  match times with
  | [] => s
  | t :: rest => failuresInARow cfg fn rest (execute cfg t t fn false s).2
  end.

End WithWorld.

Arguments CircuitBreakerConfig W : clear implicits.
Arguments Sys W : clear implicits.
Arguments Op W : clear implicits.
Arguments M W A : clear implicits.

(** A mock observer: it appends the pair it is called with to a log. *)
Definition recorder (from to : CircuitState)
    (log : list (CircuitState * CircuitState)) : list (CircuitState * CircuitState) :=
  log ++ [(from, to)].

(** A mock guarded function: it counts its calls. *)
Definition counting (calls : nat) : nat := S calls.

(** The configuration without its observer. *)
Definition withoutObserver {W : Type} (cfg : CircuitBreakerConfig W)
    : CircuitBreakerConfig W :=
  {| failureThreshold := failureThreshold cfg;
     resetTimeoutMs := resetTimeoutMs cfg;
     halfOpenMaxAttempts := halfOpenMaxAttempts cfg;
     onStateChange := None |}.

(** The state changes a step makes, as (from, to) pairs: none when the
    state after the step is the state before it. *)
Definition stateChange (before after : Breaker) : list (CircuitState * CircuitState) :=
  if decide (state before = state after) then []
  else [(state before, state after)].

(** A breaker together with the calls it has let through to their guarded
    function and whose promise has not settled yet. Each pending call has
    the number of the [execute] call that made it and a flag telling
    whether it was let through as a probe, that is, by a breaker that was
    HALF_OPEN when it let it through. The breaker itself keeps no such
    list: it only has the counter [halfOpenInflight]. *)
Record Tracked (W : Type) : Type := mkTracked {
  sys : Sys W;
  callsMade : nat;
  pendingCalls : list (nat * bool)
}.
Arguments mkTracked {W} sys callsMade pendingCalls.
Arguments sys {W} t.
Arguments callsMade {W} t.
Arguments pendingCalls {W} t.

(** What the event loop does to a tracked breaker: a call to [execute],
    the settlement of the pending call number [id] (a promise settles
    once: nothing happens for a call that is not pending), or [reset]. *)
Inductive TrackedOp (W : Type) : Type :=
| TCall (fn : W -> W)
| TSettle (id : nat) (ok : bool)
| TReset.
Arguments TCall {W} fn.
Arguments TSettle {W} id ok.
Arguments TReset {W}.

Definition trackedStep {W : Type} (cfg : CircuitBreakerConfig W) (now : Z)
    (o : TrackedOp W) (t : Tracked W) : Tracked W :=
  match o with
  | TCall fn =>
      let s' := step cfg now (OpExecute fn) (sys t) in
      match (execute_begin cfg now fn (sys t)).1 with
      | Returned _ =>
          mkTracked s' (S (callsMade t))
            (pendingCalls t
             ++ [(callsMade t, bool_decide (state s'.1 = HALF_OPEN))])
      | Thrown _ => mkTracked s' (S (callsMade t)) (pendingCalls t)
      end
  | TSettle id ok =>
      if bool_decide (id ∈ (pendingCalls t).*1) then
        mkTracked
          (step cfg now (if ok then OpFulfilled else OpRejected) (sys t))
          (callsMade t)
          (filter (fun p => p.1 <> id) (pendingCalls t))
      else t
  | TReset => mkTracked (step cfg now OpReset (sys t)) (callsMade t) (pendingCalls t)
  end.

Fixpoint runTracked {W : Type} (cfg : CircuitBreakerConfig W)
    (sched : list (Z * TrackedOp W)) (t : Tracked W) : Tracked W :=
  match sched with
  | [] => t
  | (now, o) :: rest => runTracked cfg rest (trackedStep cfg now o t)
  end.

(** The numbers of the probes that are really in flight. *)
Definition pendingProbes {W : Type} (t : Tracked W) : list nat :=
  (filter (fun p => p.2 = true) (pendingCalls t)).*1.

(** Sequential use of a breaker: each call is awaited before the next
    operation ([Await now later fn ok]: called at [now], settled at
    [later], fulfilled or not), with resets in between. *)
Inductive SeqOp (W : Type) : Type :=
| Await (now later : Z) (fn : W -> W) (ok : bool)
| ResetNow.
Arguments Await {W} now later fn ok.
Arguments ResetNow {W}.

Fixpoint runSeq {W : Type} (cfg : CircuitBreakerConfig W) (ops : list (SeqOp W))
    (s : Sys W) : Sys W :=
  match ops with
  | [] => s
  | Await now later fn ok :: rest =>
      runSeq cfg rest (execute cfg now later fn ok s).2
  | ResetNow :: rest => runSeq cfg rest (reset s)
  end.

(** Counters read off a schedule: how many promises rejected, how many
    fulfilled, when the last one rejected, and how many rejected since the
    last fulfilment or [reset], starting from [acc]. *)
Fixpoint rejectedCount {W : Type} (sched : list (Z * Op W)) : Z :=
  match sched with
  | [] => 0
  | (_, OpRejected) :: rest => 1 + rejectedCount rest
  | _ :: rest => rejectedCount rest
  end.

Fixpoint fulfilledCount {W : Type} (sched : list (Z * Op W)) : Z :=
  match sched with
  | [] => 0
  | (_, OpFulfilled) :: rest => 1 + fulfilledCount rest
  | _ :: rest => fulfilledCount rest
  end.

Fixpoint lastRejectedAt {W : Type} (acc : option Z) (sched : list (Z * Op W))
    : option Z :=
  match sched with
  | [] => acc
  | (now, OpRejected) :: rest => lastRejectedAt (Some now) rest
  | _ :: rest => lastRejectedAt acc rest
  end.

Fixpoint streak {W : Type} (acc : Z) (sched : list (Z * Op W)) : Z :=
  match sched with
  | [] => acc
  | (_, OpRejected) :: rest => streak (acc + 1) rest
  | (_, OpFulfilled) :: rest => streak 0 rest
  | (_, OpReset) :: rest => streak 0 rest
  | (_, OpExecute _) :: rest => streak acc rest
  end.

(** An operation whose guarded function, if any, leaves the world alone. *)
Definition quiet {W : Type} (o : Op W) : Prop :=
  match o with
  | OpExecute fn => forall w, fn w = w
  | _ => True
  end.

Definition isReset {W : Type} (o : Op W) : Prop :=
  match o with
  | OpReset => True
  | _ => False
  end.

#[global] Instance isReset_dec {W : Type} (o : Op W) : Decision (isReset o).
Proof. destruct o; simpl; apply _. Defined.

(** The four state changes the three-state pattern allows. *)
Definition legal (p : CircuitState * CircuitState) : Prop :=
  p = (CLOSED, OPEN) \/ p = (OPEN, HALF_OPEN)
  \/ p = (HALF_OPEN, CLOSED) \/ p = (HALF_OPEN, OPEN).

(** A log of (from, to) pairs that is a path starting at [from]: each
    pair starts where the one before ended, and none stays in place. *)
Fixpoint chained (from : CircuitState) (log : list (CircuitState * CircuitState))
    : Prop :=
  match log with
  | [] => True
  | (a, b) :: rest => a = from /\ a <> b /\ chained b rest
  end.

(** Where a path starting at [from] ends. *)
Fixpoint pathEnd (from : CircuitState) (log : list (CircuitState * CircuitState))
    : CircuitState :=
  match log with
  | [] => from
  | (_, b) :: rest => pathEnd b rest
  end.

End CircuitBreaker.

(* ===================================================================== *)
(** ** rate-limiter.ts                                                    *)
(* ===================================================================== *)

Module RateLimiter.

(** [type BucketEntry]. *)
Record BucketEntry : Set := mkEntry {
  timestamps : list Z
}.

(** The fields of [class SlidingWindowRateLimiter]. *)
Record SlidingWindowRateLimiter : Type := mkLimiter {
  maxRequests : Z;
  windowMs : Z;
  buckets : gmap string BucketEntry
}.

(** [constructor(maxRequests, windowMs)] and [createRateLimiter]. *)
Definition new (maxRequests windowMs : Z) : SlidingWindowRateLimiter :=
  {| maxRequests := maxRequests; windowMs := windowMs; buckets := ∅ |}.

Definition set_buckets (m : gmap string BucketEntry)
    (l : SlidingWindowRateLimiter) : SlidingWindowRateLimiter :=
  {| maxRequests := maxRequests l; windowMs := windowMs l; buckets := m |}.

(** The [while] loop of [prune]: from index [i], advance while
    [i < length] and [timestamps[i] <= cutoff]. It runs at most
    [length] times, which is the fuel [prune] gives it. *)
Fixpoint pruneLoop (fuel : nat) (cutoff : Z) (ts : list Z) (i : nat) : nat :=
  match fuel with
  | O => i
  | S fuel' =>
      match ts !! i with
      | Some t => if t <=? cutoff then pruneLoop fuel' cutoff ts (S i) else i
      | None => i
      end
  end.

(** [private prune(entry, now)]; [splice(0, i)] drops the first [i]
    elements in place. *)
Definition prune (l : SlidingWindowRateLimiter) (entry : BucketEntry) (now : Z)
    : BucketEntry :=
  let cutoff := now - windowMs l in
  let i := pruneLoop (length (timestamps entry)) cutoff (timestamps entry) 0 in
  if (0 <? i)%nat then mkEntry (drop i (timestamps entry)) else entry.

(** [private getOrCreateEntry(key)]. *)
Definition getOrCreateEntry (key : string) (l : SlidingWindowRateLimiter)
    : BucketEntry * SlidingWindowRateLimiter :=
  match buckets l !! key with
  | Some entry => (entry, l)
  | None => (mkEntry [], set_buckets (<[key := mkEntry []]> (buckets l)) l)
  end.

(** [tryAcquire(key)]. The entry is a shared mutable object: pruning and
    pushing change the bucket stored under [key]. *)
Definition tryAcquire (now : Z) (key : string) (l : SlidingWindowRateLimiter)
    : bool * SlidingWindowRateLimiter :=
  if maxRequests l <=? 0 then (false, l)
  else
    let '(entry, l) := getOrCreateEntry key l in
    let entry := prune l entry now in
    if maxRequests l <=? Z.of_nat (length (timestamps entry)) then
      (false, set_buckets (<[key := entry]> (buckets l)) l)
    else
      (true,
       set_buckets (<[key := mkEntry (timestamps entry ++ [now])]> (buckets l)) l).

(** [reset(key)] and [resetAll()]. *)
Definition reset (key : string) (l : SlidingWindowRateLimiter)
    : SlidingWindowRateLimiter :=
  set_buckets (delete key (buckets l)) l.

Definition resetAll (l : SlidingWindowRateLimiter) : SlidingWindowRateLimiter :=
  set_buckets ∅ l.

(** [getRemaining(key)]. *)
Definition getRemaining (now : Z) (key : string) (l : SlidingWindowRateLimiter)
    : Z * SlidingWindowRateLimiter :=
  if maxRequests l <=? 0 then (0, l)
  else
    match buckets l !! key with
    | None => (maxRequests l, l)
    | Some entry =>
        let entry := prune l entry now in
        (Z.max 0 (maxRequests l - Z.of_nat (length (timestamps entry))),
         set_buckets (<[key := entry]> (buckets l)) l)
    end.

(** The public operations, and a limiter driven by a schedule of them. *)
Inductive Op : Set :=
| OpTryAcquire (key : string)
| OpGetRemaining (key : string)
| OpReset (key : string)
| OpResetAll.

Definition step (now : Z) (o : Op) (l : SlidingWindowRateLimiter)
    : SlidingWindowRateLimiter :=
  match o with
  | OpTryAcquire key => (tryAcquire now key l).2
  | OpGetRemaining key => (getRemaining now key l).2
  | OpReset key => reset key l
  | OpResetAll => resetAll l
  end.

Fixpoint run (sched : list (Z * Op)) (l : SlidingWindowRateLimiter)
    : SlidingWindowRateLimiter :=
  match sched with
  | [] => l
  | (now, o) :: rest => run rest (step now o l)
  end.

(** Clock readings never go backwards along the schedule, starting at [t]. *)
Fixpoint monotone (t : Z) (sched : list (Z * Op)) : Prop :=
  match sched with
  | [] => True
  | (now, _) :: rest => t <= now /\ monotone now rest
  end.

Fixpoint clockAfter (t : Z) (sched : list (Z * Op)) : Z :=
  match sched with
  | [] => t
  | (now, _) :: rest => clockAfter now rest
  end.

(** The timestamps stored for [key]; none when the key has no bucket. *)
Definition bucketOf (key : string) (l : SlidingWindowRateLimiter) : list Z :=
  match buckets l !! key with
  | Some entry => timestamps entry
  | None => []
  end.

(** The pruning step as the design document words it: drop exactly the
    timestamps older than [now - windowMs], keep all the others. *)
Definition pruneOlder (l : SlidingWindowRateLimiter) (ts : list Z) (now : Z)
    : list Z :=
  filter (fun t => ¬ (t < now - windowMs l)) ts.

(** The pruning step the loop computes on a chronological bucket: keep
    exactly the timestamps strictly after [now - windowMs]. *)
Definition pruneUpTo (l : SlidingWindowRateLimiter) (ts : list Z) (now : Z)
    : list Z :=
  filter (fun t => now - windowMs l < t) ts.

(** Oldest first: each timestamp is at most the ones after it. *)
Fixpoint chronological (ts : list Z) : Prop :=
  match ts with
  | [] => True
  | t :: rest => (forall u, u ∈ rest -> t <= u) /\ chronological rest
  end.

(** How far the loop of [prune] gets, by recursion on the bucket: the
    length of the leading run of timestamps at or before [cutoff]. *)
Fixpoint expiredPrefix (cutoff : Z) (ts : list Z) : nat :=
  match ts with
  | [] => O
  | t :: rest => if t <=? cutoff then S (expiredPrefix cutoff rest) else O
  end.

(** What the buckets of a limiter satisfy at clock [t]: each one is
    chronological and holds no timestamp later than [t]. *)
Definition bucketsInOrder (t : Z) (l : SlidingWindowRateLimiter) : Prop :=
  forall key entry,
    buckets l !! key = Some entry ->
    chronological (timestamps entry) /\ forall u, u ∈ timestamps entry -> u <= t.

(** Every bucket holds at most [maxRequests] timestamps. *)
Definition bucketsBounded (l : SlidingWindowRateLimiter) : Prop :=
  forall key entry,
    buckets l !! key = Some entry ->
    Z.of_nat (length (timestamps entry)) <= maxRequests l.

(** Whether an operation reads or writes the bucket stored under [key]. *)
Definition touches (key : string) (o : Op) : Prop :=
  match o with
  | OpTryAcquire k => k = key
  | OpGetRemaining k => k = key
  | OpReset k => k = key
  | OpResetAll => True
  end.

(** The acquisitions granted for [key], oldest first, since its bucket
    was last cleared by [reset] or [resetAll]: how the list [acc] changes
    with one operation at clock [now]. *)
Definition grantedStep (key : string) (now : Z) (o : Op)
    (l : SlidingWindowRateLimiter) (acc : list Z) : list Z :=
  match o with
  | OpTryAcquire k =>
      if decide (k = key)
      then (if (tryAcquire now k l).1 then acc ++ [now] else acc)
      else acc
  | OpGetRemaining _ => acc
  | OpReset k => if decide (k = key) then [] else acc
  | OpResetAll => []
  end.

(** The clock readings at which [tryAcquire(key)] answered [true] along a
    schedule, oldest first, since the bucket of [key] was last cleared;
    [acc] holds the ones granted before the schedule starts. *)
Fixpoint granted (key : string) (sched : list (Z * Op))
    (l : SlidingWindowRateLimiter) (acc : list Z) : list Z :=
  match sched with
  | [] => acc
  | (now, o) :: rest =>
      granted key rest (step now o l) (grantedStep key now o l acc)
  end.

(** The timestamps of [ts] that fall in the window of length [w] ending at
    [T], that is, in the interval from [T - w] (excluded) to [T]. *)
Definition inWindow (w T : Z) (ts : list Z) : list Z :=
  filter (fun t => T - w < t /\ t <= T) ts.

(** The operations that delete buckets. *)
Definition clears (o : Op) : Prop :=
  match o with
  | OpReset _ => True
  | OpResetAll => True
  | _ => False
  end.

(** The keys [tryAcquire] was called with along a schedule. *)
Fixpoint acquiredKeys (sched : list (Z * Op)) : gset string :=
  match sched with
  | [] => ∅
  | (_, OpTryAcquire k) :: rest => {[k]} ∪ acquiredKeys rest
  | _ :: rest => acquiredKeys rest
  end.

(** What ties the bucket of [key] to the acquisitions granted for it, at
    clock [t]: no grant lies in the future, the bucket is chronological
    and not in the future, from now on the bucket and the grants have the
    same timestamps inside any window, and no window holds more grants
    than the limit. *)
Definition grantedInv (key : string) (t : Z) (l : SlidingWindowRateLimiter)
    (acc : list Z) : Prop :=
  (forall u, u ∈ acc -> u <= t)
  /\ chronological (bucketOf key l)
  /\ (forall u, u ∈ bucketOf key l -> u <= t)
  /\ (forall now, t <= now ->
        filter (fun x => now - windowMs l < x) (bucketOf key l)
        = filter (fun x => now - windowMs l < x) acc)
  /\ (forall T, Z.of_nat (length (inWindow (windowMs l) T acc))
                <= Z.max 0 (maxRequests l)).

End RateLimiter.

(* ===================================================================== *)
(** ** node-registry.ts (only its test file is available)                 *)
(* ===================================================================== *)

Module NodeRegistry.

(** Modelled from the spec: [node-registry.ts] is missing; the bound on a
    connection's pending set is "a fixed maximum (1000)". *)
Definition MAX_PENDING : nat := 1000.

(** Modelled from the spec: [node-registry.ts] is missing; the error codes
    of the [invoke] call contract, which are strings in a result object. *)
Definition NODE_NOT_FOUND : string := "NODE_NOT_FOUND".
Definition QUEUE_FULL : string := "QUEUE_FULL".
Definition TIMEOUT : string := "TIMEOUT".
Definition NODE_DISCONNECTED : string := "NODE_DISCONNECTED".

(** Modelled from the spec: [node-registry.ts] is missing; the [error]
    object [{code, message}] of a failed result. *)
Record InvokeError : Set := mkError {
  code : string;
  message : string
}.

(** Modelled from the spec: [node-registry.ts] is missing; the result of
    [invoke], [{ok: true, payload}] or [{ok: false, error}]. A payload is
    kept as its JSON text. *)
Inductive InvokeResult : Set :=
| Ok (payload : string)
| Failed (error : InvokeError).

(** Modelled from the spec: [node-registry.ts] is missing; a PendingCall
    with its command name, submission timestamp and timeout. Its
    correlation id is the key it is stored under, its owner the connection
    whose pending set holds it; its timer and its result continuation are
    the [EvTimeout] event and the [resolved] log below. *)
Record PendingCall : Set := mkPending {
  command : string;
  submittedAt : Z;
  timeoutMs : Z
}.

(** Modelled from the spec: [node-registry.ts] is missing; a Connection
    with its node id and its pending set, from correlation id to
    PendingCall. *)
Record Connection : Type := mkConnection {
  nodeId : string;
  pending : gmap nat PendingCall
}.

(** Modelled from the spec: [node-registry.ts] is missing; an RPC request
    frame "referencing the command, params, and correlation id", on the
    connection it is transmitted over. *)
Record Frame : Set := mkFrame {
  frame_conn : string;
  frame_id : nat;
  frame_command : string;
  frame_params : option string
}.

(** Modelled from the spec: [node-registry.ts] is missing; the registry
    owns the active connections by connection id and resolves a node id
    to its connection. [nextId] makes correlation ids fresh; [sent] is the
    list of frames transmitted so far and [resolved] the list of result
    continuations fired so far, each with the result it was given. *)
Record Registry : Type := mkRegistry {
  connections : gmap string Connection;
  nodes : gmap string string;
  nextId : nat;
  sent : list Frame;
  resolved : list (nat * InvokeResult)
}.

(** Modelled from the spec: [node-registry.ts] is missing; a new registry
    has no connection. *)
Definition empty : Registry :=
  {| connections := ∅; nodes := ∅; nextId := 0; sent := []; resolved := [] |}.

(** Modelled from the spec: [node-registry.ts] is missing;
    [register(connection, metadata)] "admits a new Connection, initializes
    its empty pending-call set"; re-registering an id "replaces the prior
    entry". *)
Definition register (connId node : string) (r : Registry) : Registry :=
  {| connections := <[connId := mkConnection node ∅]> (connections r);
     nodes := <[node := connId]> (nodes r);
     nextId := nextId r; sent := sent r; resolved := resolved r |}.

(** Modelled from the spec: [node-registry.ts] is missing; the failure an
    unregistered connection's calls are resolved with. *)
Definition disconnected : InvokeResult :=
  Failed (mkError NODE_DISCONNECTED "node disconnected").

(** Modelled from the spec: [node-registry.ts] is missing;
    [unregister(connectionId)] "removes the Connection; every PendingCall
    still owned by it is resolved with failure kind NODE_DISCONNECTED";
    "double-unregister is a no-op". *)
Definition unregister (connId : string) (r : Registry) : Registry :=
  match connections r !! connId with
  | None => r
  | Some c =>
      {| connections := delete connId (connections r);
         nodes := if decide (nodes r !! nodeId c = Some connId)
                  then delete (nodeId c) (nodes r) else nodes r;
         nextId := nextId r; sent := sent r;
         resolved := resolved r ++
                     ((fun kv => (kv.1, disconnected)) <$> map_to_list (pending c)) |}
  end.

(** Modelled from the spec: [node-registry.ts] is missing; what [invoke]
    hands back at once: a result resolved immediately, or the correlation
    id of the PendingCall whose result is deferred. *)
Inductive Invoked : Set :=
| Immediate (res : InvokeResult)
| Deferred (id : nat).

(** Modelled from the spec: [node-registry.ts] is missing; step 1 of
    [invoke], "resolve nodeId to a Connection". *)
Definition resolveNode (node : string) (r : Registry) : option (string * Connection) :=
  match nodes r !! node with
  | None => None
  | Some connId =>
      match connections r !! connId with
      | None => None
      | Some c => Some (connId, c)
      end
  end.

(** Modelled from the spec: [node-registry.ts] is missing; steps 1 to 3 of
    [invoke({nodeId, command, params, timeoutMs})]. The message of the
    QUEUE_FULL error is the one the test matches. *)
Definition invoke (now : Z) (node cmd : string) (params : option string)
    (timeout : Z) (r : Registry) : Invoked * Registry :=
  match resolveNode node r with
  | None => (Immediate (Failed (mkError NODE_NOT_FOUND "node not connected")), r)
  | Some (connId, c) =>
      if decide (MAX_PENDING <= size (pending c))%nat then
        (Immediate (Failed (mkError QUEUE_FULL "pending invoke limit exceeded")), r)
      else
        let id := nextId r in
        let c' := mkConnection (nodeId c)
                    (<[id := mkPending cmd now timeout]> (pending c)) in
        (Deferred id,
         {| connections := <[connId := c']> (connections r);
            nodes := nodes r;
            nextId := S id;
            sent := sent r ++ [mkFrame connId id cmd params];
            resolved := resolved r |})
  end.

(** Modelled from the spec: [node-registry.ts] is missing; the atomic
    "take" of a pending entry that steps 4 and 5 of [invoke] share: look
    the correlation id up in the connection's pending set, remove it and
    fire its continuation with [res]; nothing happens when the connection
    or the entry is absent. *)
Definition settle (connId : string) (id : nat) (res : InvokeResult)
    (r : Registry) : Registry :=
  match connections r !! connId with
  | None => r
  | Some c =>
      match pending c !! id with
      | None => r
      | Some _ =>
          {| connections :=
               <[connId := mkConnection (nodeId c) (delete id (pending c))]>
                 (connections r);
             nodes := nodes r; nextId := nextId r; sent := sent r;
             resolved := resolved r ++ [(id, res)] |}
      end
  end.

(** Modelled from the spec: [node-registry.ts] is missing; step 4, a reply
    frame whose correlation id matches a PendingCall resolves it "per the
    frame's payload". *)
Definition handleResponse (connId : string) (id : nat) (res : InvokeResult)
    (r : Registry) : Registry :=
  settle connId id res r.

(** Modelled from the spec: [node-registry.ts] is missing; the failure a
    timed-out call is resolved with. *)
Definition timedOut : InvokeResult :=
  Failed (mkError TIMEOUT "invoke timed out").

(** Modelled from the spec: [node-registry.ts] is missing; step 5, "on
    timer expiry before a reply arrives: remove the PendingCall, resolve
    with TIMEOUT". *)
Definition handleTimeout (connId : string) (id : nat) (r : Registry) : Registry :=
  settle connId id timedOut r.

(** Modelled from the spec: [node-registry.ts] is missing; the events the
    registry serialises. *)
Inductive Event : Set :=
| EvRegister (connId node : string)
| EvUnregister (connId : string)
| EvInvoke (now : Z) (node cmd : string) (params : option string) (timeout : Z)
| EvResponse (connId : string) (id : nat) (res : InvokeResult)
| EvTimeout (connId : string) (id : nat).

(** Modelled from the spec: [node-registry.ts] is missing; the registry
    handles one event at a time ("all mutations to a given connection's
    pending set must be serialized"). *)
Definition step (e : Event) (r : Registry) : Registry :=
  match e with
  | EvRegister connId node => register connId node r
  | EvUnregister connId => unregister connId r
  | EvInvoke now node cmd params timeout => (invoke now node cmd params timeout r).2
  | EvResponse connId id res => handleResponse connId id res r
  | EvTimeout connId id => handleTimeout connId id r
  end.

Fixpoint run (evs : list Event) (r : Registry) : Registry :=
  match evs with
  | [] => r
  | e :: rest => run rest (step e r)
  end.

(** The call with correlation id [id] is in flight on connection [connId]. *)
Definition inFlight (connId : string) (id : nat) (r : Registry) : Prop :=
  exists c, connections r !! connId = Some c /\ is_Some (pending c !! id).

(** The results the continuation of call [id] has been fired with, in
    order. *)
Definition firings (id : nat) (r : Registry) : list InvokeResult :=
  (filter (fun p => p.1 = id) (resolved r)).*2.

(** Whether event [e] is one of the three resolution paths reaching the
    call [id] of connection [connId], and the result it would give. *)
Definition reaches (connId : string) (id : nat) (e : Event) : option InvokeResult :=
  match e with
  | EvResponse c i res => if decide (c = connId /\ i = id) then Some res else None
  | EvTimeout c i => if decide (c = connId /\ i = id) then Some timedOut else None
  | EvUnregister c => if decide (c = connId) then Some disconnected else None
  | _ => None
  end.

(** The first event of [evs] that reaches the call, if any. *)
Fixpoint firstReach (connId : string) (id : nat) (evs : list Event)
    : option InvokeResult :=
  match evs with
  | [] => None
  | e :: rest =>
      match reaches connId id e with
      | Some res => Some res
      | None => firstReach connId id rest
      end
  end.

(** Events that replace the connection [connId] by a new registration. *)
Definition replaces (connId : string) (e : Event) : Prop :=
  match e with
  | EvRegister c _ => c = connId
  | _ => False
  end.

(** [n] invokes of the same command to the same node, none answered. *)
Fixpoint invokeMany (n : nat) (now : Z) (node cmd : string) (timeout : Z)
    (r : Registry) : Registry :=
  match n with
  | O => r
  | S n' => invokeMany n' now node cmd timeout (invoke now node cmd None timeout r).2
  end.

(** What every registry built by the operations satisfies: correlation ids
    handed out so far, pending or resolved, are below [nextId], a pending
    id has not been resolved, no id is pending on two connections, and no
    id was resolved twice. *)
Record consistent (r : Registry) : Prop := mkConsistent {
  pending_below : forall c i, inFlight c i r -> (i < nextId r)%nat;
  pending_unresolved : forall c i, inFlight c i r -> i ∉ (resolved r).*1;
  pending_one_owner : forall c1 c2 i, inFlight c1 i r -> inFlight c2 i r -> c1 = c2;
  resolved_below : forall i, i ∈ (resolved r).*1 -> (i < nextId r)%nat;
  resolved_once : NoDup (resolved r).*1
}.

Arguments MAX_PENDING : simpl never.

End NodeRegistry.

(* ===================================================================== *)
(** * Properties of the circuit breaker                                   *)
(* ===================================================================== *)

Module CircuitBreakerFacts.
Import CircuitBreaker.

Ltac unfold_gates :=
  unfold execute, execute_begin, bind, openGate, halfOpenGate, callFn,
    modify, throw, ret, transition, elapsedSinceOpen in *.

(** Case analysis on every [<=?] test the goal still shows. *)
Ltac case_leb :=
  repeat (match goal with
          | |- context [Z.leb ?a ?b] => destruct (Z.leb_spec a b); simpl
          end).

Section Gates.
Context {W : Type}.
Implicit Types (cfg : CircuitBreakerConfig W) (s : Sys W) (fn : W -> W).

(** A call that finds the breaker CLOSED goes straight to [fn]. *)
Lemma execute_begin_closed cfg now fn s :
  state s.1 = CLOSED ->
  execute_begin cfg now fn s = (Returned tt, (s.1, fn s.2)).
Proof.
  intros Hst. unfold_gates. rewrite Hst. simpl. rewrite Hst. by simpl.
Qed.

(** OPEN and too early: the error is thrown before anything is touched. *)
Lemma execute_begin_open_early cfg now fn s :
  state s.1 = OPEN ->
  elapsedSinceOpen now s.1 < resetTimeoutMs cfg ->
  execute_begin cfg now fn s =
    (Thrown (mkCircuitOpenError OPEN
               (resetTimeoutMs cfg - elapsedSinceOpen now s.1)), s).
Proof.
  intros Hst Hlt. unfold execute_begin, bind, openGate. rewrite Hst. simpl.
  destruct (Z.leb_spec (resetTimeoutMs cfg) (elapsedSinceOpen now s.1)); [lia|].
  reflexivity.
Qed.

(** HALF_OPEN with all probe slots taken. *)
Lemma execute_begin_half_open_full cfg now fn s :
  state s.1 = HALF_OPEN ->
  halfOpenMaxAttempts cfg <= halfOpenInflight s.1 ->
  execute_begin cfg now fn s =
    (Thrown (mkCircuitOpenError OPEN
               (Z.max 0 (resetTimeoutMs cfg - elapsedSinceOpen now s.1))), s).
Proof.
  intros Hst Hfull. unfold execute_begin, bind, openGate, halfOpenGate, ret.
  rewrite Hst. simpl. rewrite Hst. simpl.
  destruct (Z.leb_spec (halfOpenMaxAttempts cfg) (halfOpenInflight s.1)); [|lia].
  reflexivity.
Qed.

(** HALF_OPEN with a free probe slot. *)
Lemma execute_begin_half_open_free cfg now fn s :
  state s.1 = HALF_OPEN ->
  halfOpenInflight s.1 < halfOpenMaxAttempts cfg ->
  execute_begin cfg now fn s =
    (Returned tt,
     (set_halfOpenInflight (halfOpenInflight s.1 + 1) s.1, fn s.2)).
Proof.
  intros Hst Hfree. unfold execute_begin, bind, openGate, halfOpenGate, ret.
  rewrite Hst. simpl. rewrite Hst. simpl.
  destruct (Z.leb_spec (halfOpenMaxAttempts cfg) (halfOpenInflight s.1)); [lia|].
  reflexivity.
Qed.

End Gates.

(** ** OPEN rejects *)

Section Opened.
Context {W : Type}.
Implicit Types (cfg : CircuitBreakerConfig W) (s : Sys W) (fn : W -> W).

Lemma step_openedInPast cfg t now o s :
  t <= now -> openedInPast t s -> openedInPast now (step cfg now o s).
Proof.
  intros Hle Hinv. destruct s as [b w]. unfold openedInPast in *.
  destruct b as [st f su cf lf oa hi]. simpl in Hinv.
  assert (Hold : forall o', oa = Some o' -> o' <= now)
    by (intros o' Ho'; specialize (Hinv o' Ho'); lia).
  destruct o as [fn| | |]; simpl.
  - unfold_gates. simpl.
    destruct st; simpl;
      case_leb; exact Hold.
  - unfold onSuccess. simpl. destruct st; simpl; exact Hold.
  - unfold onFailure. simpl. destruct st; simpl;
      case_leb; try exact Hold; intros o' [= <-]; lia.
  - intros o' [=].
Qed.

Lemma run_openedInPast cfg sched : forall t s,
  monotone t sched -> openedInPast t s ->
  openedInPast (clockAfter t sched) (run cfg sched s).
Proof.
  induction sched as [|[now o] rest IH]; intros t s Hmono Hinv; [done|].
  destruct Hmono as [Hle Hrest]. simpl. apply IH; [done|].
  by apply (step_openedInPast cfg t).
Qed.

(** A rejection does not depend on the guarded function: the state it
    leaves is the same whatever [fn] is. *)
Lemma rejection_ignores_fn cfg now fn fn' s e :
  (execute_begin cfg now fn s).1 = Thrown e ->
  execute_begin cfg now fn' s = execute_begin cfg now fn s.
Proof.
  destruct s as [b w]. destruct b as [st f su cf lf oa hi].
  unfold_gates. simpl.
  destruct st; simpl;
    case_leb; intros [=]; reflexivity.
Qed.

End Opened.

(** C2. A breaker that is OPEN for less than [resetTimeoutMs] rejects
    [execute(fn)] at once with a [CircuitOpenError] carrying the current
    state and [retryAfterMs = resetTimeoutMs - elapsed]; this value is
    positive and, the elapsed time being a time span, at most
    [resetTimeoutMs]. Nothing changes: not the breaker, and not the world,
    whatever [fn] would have done to it, so [fn] was not called. The same
    holds for the whole awaited call. On a breaker driven by its
    operations with a clock that does not go backwards the elapsed time is
    indeed never negative. *)
Theorem open_rejects_without_calling {W : Type} (cfg : CircuitBreakerConfig W)
    (now later : Z) (fn : W -> W) (ok : bool) (s : Sys W) :
  state s.1 = OPEN ->
  elapsedSinceOpen now s.1 < resetTimeoutMs cfg ->
  let retry := resetTimeoutMs cfg - elapsedSinceOpen now s.1 in
  execute_begin cfg now fn s = (Thrown (mkCircuitOpenError (state s.1) retry), s)
  /\ execute cfg now later fn ok s = (Thrown (mkCircuitOpenError (state s.1) retry), s)
  /\ 0 < retry
  /\ (0 <= elapsedSinceOpen now s.1 -> retry <= resetTimeoutMs cfg)
  /\ (forall t0 sched w,
        monotone t0 sched ->
        clockAfter t0 sched <= now ->
        s = run cfg sched (initial, w) ->
        retry <= resetTimeoutMs cfg).
Proof.
  intros Hst Hlt retry.
  pose proof (execute_begin_open_early cfg now fn s Hst Hlt) as Hb.
  rewrite Hst. repeat split.
  - exact Hb.
  - unfold execute. rewrite Hb. reflexivity.
  - unfold retry. lia.
  - unfold retry. lia.
  - intros t0 sched w Hmono Hnow ->.
    assert (Hpast : openedInPast (clockAfter t0 sched)
                      (run cfg sched (initial, w))).
    { apply run_openedInPast; [done|]. intros o [=]. }
    unfold retry, elapsedSinceOpen. unfold openedInPast in Hpast.
    destruct (openedAtMs _) as [o|]; simpl; [|lia].
    specialize (Hpast o eq_refl). lia.
Qed.

(** The test "CircuitOpenError has correct properties": threshold 1,
    [resetTimeoutMs = 5000], opened at 0, called at 1200 with a counting
    mock. *)
Lemma open_rejects_without_calling_witness :
  execute (@mkConfig nat 1 5000 2 None) 1200 1200 counting true
    (mkBreaker OPEN 1 0 1 (Some 0) (Some 0) 0, 0%nat)
  = (Thrown (mkCircuitOpenError OPEN 3800),
     (mkBreaker OPEN 1 0 1 (Some 0) (Some 0) 0, 0%nat)).
Proof.
  destruct (open_rejects_without_calling (@mkConfig nat 1 5000 2 None)
              1200 1200 counting true
              (mkBreaker OPEN 1 0 1 (Some 0) (Some 0) 0, 0%nat))
    as (_ & Hcall & _).
  - reflexivity.
  - vm_compute. reflexivity.
  - exact Hcall.
Defined.

(** ** CLOSED counts consecutive failures *)

Section Closed.
Context {W : Type}.
Implicit Types (cfg : CircuitBreakerConfig W) (s : Sys W) (fn : W -> W).

Lemma failed_call_closed cfg now later fn s :
  state s.1 = CLOSED ->
  let s' := (execute cfg now later fn false s).2 in
  consecutiveFailures s'.1 = consecutiveFailures s.1 + 1
  /\ (failureThreshold cfg <= consecutiveFailures s.1 + 1 ->
      state s'.1 = OPEN /\ openedAtMs s'.1 = Some later)
  /\ (consecutiveFailures s.1 + 1 < failureThreshold cfg ->
      state s'.1 = CLOSED).
Proof.
  intros Hst. unfold execute. rewrite (execute_begin_closed _ _ _ _ Hst).
  destruct s as [b w]. simpl in *. unfold onFailure. simpl. rewrite Hst. simpl.
  destruct (Z.leb_spec (failureThreshold cfg) (consecutiveFailures b + 1));
    simpl; repeat split; intros; try lia; done.
Qed.

Lemma successful_call_closed cfg now later fn s :
  state s.1 = CLOSED ->
  let s' := (execute cfg now later fn true s).2 in
  consecutiveFailures s'.1 = 0 /\ state s'.1 = CLOSED.
Proof.
  intros Hst. unfold execute. rewrite (execute_begin_closed _ _ _ _ Hst).
  destruct s as [b w]. simpl in *. unfold onSuccess. simpl. rewrite Hst.
  by simpl.
Qed.

Lemma failuresInARow_below cfg fn times : forall s,
  state s.1 = CLOSED ->
  consecutiveFailures s.1 + Z.of_nat (length times) < failureThreshold cfg ->
  state (failuresInARow cfg fn times s).1 = CLOSED
  /\ consecutiveFailures (failuresInARow cfg fn times s).1
     = consecutiveFailures s.1 + Z.of_nat (length times).
Proof.
  induction times as [|t rest IH]; intros s Hst Hlt.
  - simpl. split; [done | lia].
  - cbn [failuresInARow].
    destruct (failed_call_closed cfg t t fn s Hst) as (Hc & _ & Hstay).
    cbn [length] in Hlt.
    destruct (IH (execute cfg t t fn false s).2) as [IH1 IH2].
    + apply Hstay. lia.
    + rewrite Hc. lia.
    + split; [exact IH1|]. rewrite IH2, Hc. cbn [length]. lia.
Qed.

Lemma failuresInARow_app cfg fn times1 times2 s :
  failuresInARow cfg fn (times1 ++ times2) s
  = failuresInARow cfg fn times2 (failuresInARow cfg fn times1 s).
Proof.
  revert s. induction times1 as [|t rest IH]; intros s; [done|].
  simpl. apply IH.
Qed.

End Closed.

(** C4. A breaker starts CLOSED. While it is CLOSED a failed call adds one
    to [consecutiveFailures] and a successful call sets it to zero and
    leaves the state CLOSED; the failure that brings the count to
    [failureThreshold] moves the breaker to OPEN and records the clock as
    the open timestamp. So from a new breaker fewer than [failureThreshold]
    failures in a row leave it CLOSED, the failure number
    [failureThreshold] opens it, and after a success in between the count
    starts again from zero. *)
Theorem closed_counts_and_trips {W : Type} (cfg : CircuitBreakerConfig W)
    (fn : W -> W) (w : W) :
  state (initial, w).1 = CLOSED
  /\ (forall now later s,
        state s.1 = CLOSED ->
        let s' := (execute cfg now later fn false s).2 in
        consecutiveFailures s'.1 = consecutiveFailures s.1 + 1
        /\ (consecutiveFailures s'.1 < failureThreshold cfg -> state s'.1 = CLOSED)
        /\ (failureThreshold cfg <= consecutiveFailures s'.1 ->
            state s'.1 = OPEN /\ openedAtMs s'.1 = Some later))
  /\ (forall now later s,
        state s.1 = CLOSED ->
        let s' := (execute cfg now later fn true s).2 in
        consecutiveFailures s'.1 = 0 /\ state s'.1 = CLOSED)
  /\ (forall times,
        Z.of_nat (length times) < failureThreshold cfg ->
        let s' := failuresInARow cfg fn times (initial, w) in
        state s'.1 = CLOSED
        /\ consecutiveFailures s'.1 = Z.of_nat (length times))
  /\ (forall times t,
        Z.of_nat (length (times ++ [t])) = failureThreshold cfg ->
        let s' := failuresInARow cfg fn (times ++ [t]) (initial, w) in
        state s'.1 = OPEN /\ openedAtMs s'.1 = Some t)
  /\ (forall times1 now later times2,
        Z.of_nat (length times1) < failureThreshold cfg ->
        Z.of_nat (length times2) < failureThreshold cfg ->
        let s1 := failuresInARow cfg fn times1 (initial, w) in
        let s2 := (execute cfg now later fn true s1).2 in
        let s3 := failuresInARow cfg fn times2 s2 in
        consecutiveFailures s2.1 = 0
        /\ state s3.1 = CLOSED
        /\ consecutiveFailures s3.1 = Z.of_nat (length times2)).
Proof.
  split; [reflexivity|].
  split.
  { intros now later s Hst s'.
    destruct (failed_call_closed cfg now later fn s Hst) as (Hc & Htrip & Hstay).
    subst s'. rewrite Hc. split; [done|]. split; [exact Hstay | exact Htrip]. }
  split; [intros now later s Hst; exact (successful_call_closed cfg now later fn s Hst)|].
  split.
  { intros times Hlt s'.
    destruct (failuresInARow_below cfg fn times (initial, w)) as [H1 H2];
      [done | simpl; lia |].
    split; [exact H1|]. subst s'. rewrite H2. simpl. lia. }
  split.
  { intros times t Hlen s'. subst s'. rewrite failuresInARow_app.
    rewrite length_app in Hlen. cbn [length] in Hlen.
    destruct (failuresInARow_below cfg fn times (initial, w)) as [H1 H2];
      [done | simpl; lia |].
    cbn [failuresInARow].
    destruct (failed_call_closed cfg t t fn _ H1) as (Hc & Htrip & _).
    apply Htrip. rewrite H2. simpl. lia. }
  intros times1 now later times2 Hlt1 Hlt2 s1 s2 s3.
  destruct (failuresInARow_below cfg fn times1 (initial, w)) as [H1 _];
    [done | simpl; lia |].
  destruct (successful_call_closed cfg now later fn s1 H1) as [Hz Hcl].
  fold s2 in Hz, Hcl.
  destruct (failuresInARow_below cfg fn times2 s2) as [H3 H4];
    [done | lia |].
  split; [exact Hz|]. split; [exact H3|]. subst s3. rewrite H4, Hz. lia.
Qed.

(** The tests "trips to OPEN after reaching failure threshold" and "resets
    failure count on success", with threshold 3: the third failure in a
    row opens the breaker at the time of that failure, and two failures, a
    success and two more failures leave it CLOSED. *)
Lemma closed_counts_and_trips_witness :
  (let s' := failuresInARow (@mkConfig nat 3 10000 2 None) counting
               ([10; 20] ++ [30]) (initial, 0%nat) in
   state s'.1 = OPEN /\ openedAtMs s'.1 = Some 30)
  /\ (let s1 := failuresInARow (@mkConfig nat 3 10000 2 None) counting
                  [10; 20] (initial, 0%nat) in
      let s2 := (execute (@mkConfig nat 3 10000 2 None) 30 31 counting true s1).2 in
      let s3 := failuresInARow (@mkConfig nat 3 10000 2 None) counting [40; 50] s2 in
      consecutiveFailures s2.1 = 0
      /\ state s3.1 = CLOSED
      /\ consecutiveFailures s3.1 = Z.of_nat (length [40; 50])).
Proof.
  destruct (closed_counts_and_trips (@mkConfig nat 3 10000 2 None) counting 0%nat)
    as (_ & _ & _ & _ & Htrip & Hreset).
  split.
  - apply (Htrip [10; 20] 30). reflexivity.
  - apply (Hreset [10; 20] 30 31 [40; 50]); vm_compute; reflexivity.
Defined.

(** ** HALF_OPEN probes *)

Section Probes.
Context {W : Type}.
Implicit Types (cfg : CircuitBreakerConfig W) (s : Sys W) (fn : W -> W).

Lemma step_inflight_bound cfg now o s :
  0 <= halfOpenMaxAttempts cfg ->
  halfOpenInflight s.1 <= halfOpenMaxAttempts cfg ->
  halfOpenInflight (step cfg now o s).1 <= halfOpenMaxAttempts cfg.
Proof.
  intros Hmax Hinv. destruct s as [b w]. destruct b as [st f su cf lf oa hi].
  simpl in Hinv.
  destruct o as [fn| | |]; simpl.
  - unfold_gates. simpl.
    destruct st; simpl;
      case_leb; lia.
  - unfold onSuccess. simpl. destruct st; simpl; lia.
  - unfold onFailure. simpl. destruct st; simpl;
      case_leb; lia.
  - lia.
Qed.

(** The synchronous prefix of a call never writes the open timestamp: the
    one a HALF_OPEN rejection reads is the one recorded on opening. *)
Lemma execute_begin_keeps_openedAt cfg now fn s :
  openedAtMs (execute_begin cfg now fn s).2.1 = openedAtMs s.1.
Proof.
  destruct s as [b w]. destruct b as [st f su cf lf oa hi].
  unfold_gates. simpl. destruct st; simpl; case_leb; reflexivity.
Qed.

Lemma step_probeSlots cfg now o s :
  1 <= halfOpenMaxAttempts cfg ->
  probeSlots cfg s -> probeSlots cfg (step cfg now o s).
Proof.
  intros Hmax Hinv. destruct s as [b w]. destruct b as [st f su cf lf oa hi].
  unfold probeSlots in *. simpl in Hinv. destruct Hinv as (Hrange & Hhalf & Hfree).
  destruct o as [fn| | |]; simpl.
  - unfold_gates. simpl.
    destruct st; simpl; case_leb;
      repeat split; intros; try discriminate; try congruence; try lia.
    all: try (specialize (Hfree ltac:(discriminate)); lia).
    all: try (specialize (Hhalf eq_refl); lia).
  - unfold onSuccess. simpl.
    destruct st; simpl; repeat split; intros; try discriminate; try congruence; try lia.
    all: try (specialize (Hfree ltac:(discriminate)); lia).
  - unfold onFailure. simpl.
    destruct st; simpl; case_leb;
      repeat split; intros; try discriminate; try congruence; try lia.
    all: try (specialize (Hfree ltac:(discriminate)); lia).
    all: try (specialize (Hhalf eq_refl); lia).
  - repeat split; intros; try discriminate; lia.
Qed.

Lemma run_probeSlots cfg sched : forall s,
  1 <= halfOpenMaxAttempts cfg ->
  probeSlots cfg s -> probeSlots cfg (run cfg sched s).
Proof.
  induction sched as [|[now o] rest IH]; intros s Hmax Hinv; [done|].
  simpl. apply IH; [done|]. by apply step_probeSlots.
Qed.

(** Each probe admitted takes one slot of the counter. *)
Lemma execute_begin_takes_slot cfg now fn s :
  match execute_begin cfg now fn s with
  | (Returned _, s') =>
      halfOpenInflight s'.1
      = halfOpenInflight s.1 + (if decide (state s'.1 = HALF_OPEN) then 1 else 0)
  | (Thrown _, s') => halfOpenInflight s'.1 = halfOpenInflight s.1
  end.
Proof.
  destruct s as [b w]. destruct b as [st f su cf lf oa hi].
  unfold_gates. simpl. destruct st; simpl; case_leb; lia.
Qed.

Lemma probesAdmitted_bound cfg calls : forall s,
  1 <= halfOpenMaxAttempts cfg ->
  probeSlots cfg s ->
  Z.of_nat (probesAdmitted cfg calls s) + halfOpenInflight s.1
  <= halfOpenMaxAttempts cfg.
Proof.
  induction calls as [|[now fn] rest IH]; intros s Hmax Hinv.
  - simpl. destruct Hinv as ([_ ?] & _). lia.
  - cbn [probesAdmitted].
    pose proof (step_probeSlots cfg now (OpExecute fn) s Hmax Hinv) as Hinv'.
    pose proof (execute_begin_takes_slot cfg now fn s) as Hslot.
    simpl in Hinv'.
    destruct (execute_begin cfg now fn s) as [[e|[]] s'] eqn:Hexec; simpl in *.
    + specialize (IH s' Hmax Hinv'). lia.
    + specialize (IH s' Hmax Hinv').
      destruct (decide (state s'.1 = HALF_OPEN)); lia.
Qed.

Lemma run_inflight_bound cfg sched : forall s,
  0 <= halfOpenMaxAttempts cfg ->
  halfOpenInflight s.1 <= halfOpenMaxAttempts cfg ->
  halfOpenInflight (run cfg sched s).1 <= halfOpenMaxAttempts cfg.
Proof.
  induction sched as [|[now o] rest IH]; intros s Hmax Hinv; [done|].
  simpl. apply IH; [done|]. by apply step_inflight_bound.
Qed.

End Probes.




(** ** What the HALF_OPEN rejection reports *)

Section Ripe.
Context {W : Type}.
Implicit Types (cfg : CircuitBreakerConfig W) (s : Sys W) (fn : W -> W).

Lemma elapsedSinceOpen_mono (b : Breaker) t now :
  t <= now -> elapsedSinceOpen t b <= elapsedSinceOpen now b.
Proof. unfold elapsedSinceOpen. destruct (openedAtMs b); simpl; lia. Qed.

Lemma step_ripe cfg t now o s :
  t <= now -> ripe cfg t s -> ripe cfg now (step cfg now o s).
Proof.
  intros Hle Hinv. destruct s as [b w]. unfold ripe in *. simpl in Hinv.
  pose proof (elapsedSinceOpen_mono b t now Hle) as Hmono.
  destruct b as [st f su cf lf oa hi].
  unfold elapsedSinceOpen in *. simpl in *.
  destruct o as [fn| | |]; simpl.
  - unfold_gates. simpl.
    destruct st; simpl;
      case_leb; intros; try discriminate; try lia.
    all: specialize (Hinv eq_refl); lia.
  - unfold onSuccess. simpl. destruct st; simpl; intros; discriminate.
  - unfold onFailure. simpl. destruct st; simpl;
      case_leb; intros; discriminate.
  - intros; discriminate.
Qed.

Lemma run_ripe cfg sched : forall t s,
  monotone t sched -> ripe cfg t s ->
  ripe cfg (clockAfter t sched) (run cfg sched s).
Proof.
  induction sched as [|[now o] rest IH]; intros t s Hmono Hinv; [done|].
  destruct Hmono as [Hle Hrest]. simpl. apply IH; [done|].
  by apply (step_ripe cfg t).
Qed.

End Ripe.

(** C10. A call rejected in HALF_OPEN because [halfOpenMaxAttempts] probes
    are in flight throws a [CircuitOpenError] that reports OPEN, which is
    not the breaker's state, and [retryAfterMs = max(0, resetTimeoutMs -
    (now - openedAtMs))]. On a breaker that reached HALF_OPEN along a
    schedule of its operations, with a clock that does not go backwards,
    that value is 0; so a rejection with a retry-after value that is not
    positive exists. *)
Theorem half_open_rejection_reports_open {W : Type} (cfg : CircuitBreakerConfig W) :
  (forall now fn s,
     state s.1 = HALF_OPEN ->
     halfOpenMaxAttempts cfg <= halfOpenInflight s.1 ->
     exists e,
       (execute_begin cfg now fn s).1 = Thrown e
       /\ err_state e = OPEN
       /\ err_state e <> state s.1
       /\ retryAfterMs e =
          Z.max 0 (resetTimeoutMs cfg - (now - default now (openedAtMs s.1))))
  /\ (forall t0 sched w now fn,
        monotone t0 sched ->
        clockAfter t0 sched <= now ->
        let s := run cfg sched (initial, w) in
        state s.1 = HALF_OPEN ->
        halfOpenMaxAttempts cfg <= halfOpenInflight s.1 ->
        (execute_begin cfg now fn s).1 = Thrown (mkCircuitOpenError OPEN 0))
  /\ (exists (cfg0 : CircuitBreakerConfig nat) now fn s e,
        state s.1 = HALF_OPEN
        /\ (execute_begin cfg0 now fn s).1 = Thrown e
        /\ retryAfterMs e <= 0).
Proof.
  split; [|split].
  - intros now fn s Hst Hfull.
    rewrite (execute_begin_half_open_full cfg now fn s Hst Hfull).
    eexists. split; [reflexivity|]. simpl. rewrite Hst. done.
  - intros t0 sched w now fn Hmono Hnow s Hst Hfull.
    rewrite (execute_begin_half_open_full cfg now fn s Hst Hfull). simpl.
    assert (Hripe : ripe cfg (clockAfter t0 sched) s).
    { apply run_ripe; [done|]. intros Hst0. discriminate. }
    specialize (Hripe Hst).
    pose proof (elapsedSinceOpen_mono s.1 _ _ Hnow).
    do 2 f_equal. lia.
  - exists (@mkConfig nat 1 5000 1 None), 5000, counting,
      (run (@mkConfig nat 1 5000 1 None)
         [(0, OpExecute counting); (0, OpRejected); (5000, OpExecute counting)]
         (initial, 0%nat)),
      (mkCircuitOpenError OPEN 0).
    vm_compute. repeat split; discriminate.
Qed.

(** Threshold 1, [resetTimeoutMs = 5000], one probe slot: the breaker
    opens at 0, the call at 5000 becomes the probe, the call at 6000 is
    rejected with state OPEN and [retryAfterMs = 0]. *)
Lemma half_open_rejection_reports_open_witness :
  (execute_begin (@mkConfig nat 1 5000 1 None) 6000 counting
     (run (@mkConfig nat 1 5000 1 None)
        [(0, OpExecute counting); (0, OpRejected); (5000, OpExecute counting)]
        (initial, 0%nat))).1
  = Thrown (mkCircuitOpenError OPEN 0).
Proof.
  destruct (half_open_rejection_reports_open (@mkConfig nat 1 5000 1 None))
    as (_ & Hzero & _).
  apply (Hzero 0 [(0, OpExecute counting); (0, OpRejected);
                  (5000, OpExecute counting)] 0%nat 6000 counting).
  - vm_compute. repeat split; discriminate.
  - vm_compute. discriminate.
  - reflexivity.
  - vm_compute. discriminate.
Defined.

(** ** reset *)


(** [reset()] leaves the cumulative totals and the last-failure timestamp
    as they were. *)
Lemma reset_keeps_totals {W : Type} (s : Sys W) :
  failures (reset s).1 = failures s.1
  /\ successes (reset s).1 = successes s.1
  /\ lastFailureMs (reset s).1 = lastFailureMs s.1.
Proof. done. Qed.

(** ** The state-change observer *)

Section Observer.
Context {W : Type}.
Implicit Types (cfg : CircuitBreakerConfig W) (s : Sys W) (fn : W -> W).

(** The breaker's own fields evolve the same way with or without an
    observer, whatever the world is. *)
Lemma step_breaker_independent cfg now o (b : Breaker) (w1 w2 : W) :
  (step cfg now o (b, w1)).1 = (step (withoutObserver cfg) now o (b, w2)).1.
Proof.
  destruct b as [st f su cf lf oa hi].
  destruct o as [fn| | |]; simpl.
  - unfold_gates. simpl.
    destruct st; simpl;
      case_leb; reflexivity.
  - unfold onSuccess. simpl. destruct st; reflexivity.
  - unfold onFailure. simpl. destruct st; simpl;
      case_leb; reflexivity.
  - reflexivity.
Qed.

(** So is the outcome of the synchronous prefix of a call. *)
Lemma execute_begin_outcome_independent cfg now fn (b : Breaker) (w1 w2 : W) :
  (execute_begin cfg now fn (b, w1)).1
  = (execute_begin (withoutObserver cfg) now fn (b, w2)).1.
Proof.
  destruct b as [st f su cf lf oa hi]. unfold_gates. simpl.
  destruct st; simpl;
    case_leb; reflexivity.
Qed.

(** Without an observer the settlements and [reset] leave the world
    alone. *)
Lemma settle_world_without_observer cfg now o s :
  onStateChange cfg = None ->
  (forall fn, o <> OpExecute fn) ->
  (step cfg now o s).2 = s.2.
Proof.
  intros Hnone Hne. destruct s as [b w]. destruct b as [st f su cf lf oa hi].
  destruct o as [fn| | |]; simpl.
  - by destruct (Hne fn).
  - unfold onSuccess, transition. simpl. rewrite Hnone. destruct st; reflexivity.
  - unfold onFailure, transition. simpl. rewrite Hnone.
    destruct st; simpl;
      case_leb; reflexivity.
  - reflexivity.
Qed.

End Observer.

(** With the recording observer, every step other than [reset] logs the
    state change it makes, once, and logs nothing when the state stays. *)
Lemma step_observed (cfg : CircuitBreakerConfig (list (CircuitState * CircuitState)))
    now o b log :
  onStateChange cfg = Some recorder ->
  o <> OpReset ->
  (forall fn, o = OpExecute fn -> forall w, fn w = w) ->
  (step cfg now o (b, log)).2 = log ++ stateChange b (step cfg now o (b, log)).1.
Proof.
  intros Hobs Hne Hquiet. destruct b as [st f su cf lf oa hi].
  destruct o as [fn| | |]; simpl.
  - specialize (Hquiet fn eq_refl).
    unfold_gates. simpl. rewrite Hobs. unfold stateChange, recorder.
    destruct st; simpl;
      case_leb; rewrite ?Hquiet, ?app_nil_r; reflexivity.
  - unfold onSuccess, transition. simpl. rewrite Hobs.
    unfold stateChange, recorder.
    destruct st; simpl; rewrite ?app_nil_r; reflexivity.
  - unfold onFailure, transition. simpl. rewrite Hobs.
    unfold stateChange, recorder.
    destruct st; simpl;
      case_leb; rewrite ?app_nil_r; reflexivity.
  - done.
Qed.

(** C8, at the input where the code departs from it. [reset()] assigns
    [state] directly instead of going through [transition]: it never calls
    the observer. A breaker with the recording observer, opened by one
    failure and then reset, has changed state from OPEN to CLOSED while
    the log still holds the single pair (CLOSED, OPEN). *)
Theorem reset_bypasses_observer :
  (forall (W : Type) (s : Sys W), (reset s).2 = s.2)
  /\ (let cfg := @mkConfig (list (CircuitState * CircuitState)) 1 10000 2
                   (Some recorder) in
      let opened := run cfg [(0, OpExecute id); (0, OpRejected)] (initial, []) in
      let after := step cfg 1 OpReset opened in
      state opened.1 = OPEN
      /\ state after.1 = CLOSED
      /\ stateChange opened.1 after.1 = [(OPEN, CLOSED)]
      /\ opened.2 = [(CLOSED, OPEN)]
      /\ after.2 = [(CLOSED, OPEN)]).
Proof.
  split; [reflexivity|]. vm_compute. repeat split; reflexivity.
Qed.

End CircuitBreakerFacts.

(* ===================================================================== *)
(** * Properties of the sliding-window limiter                            *)
(* ===================================================================== *)

Module RateLimiterFacts.
Import RateLimiter.

(** ** The loop of [prune] *)

Lemma pruneLoop_expiredPrefix cutoff ts : forall pre fuel,
  (length ts <= fuel)%nat ->
  pruneLoop fuel cutoff (pre ++ ts) (length pre)
  = (length pre + expiredPrefix cutoff ts)%nat.
Proof.
  induction ts as [|t rest IH]; intros pre fuel Hfuel.
  - rewrite app_nil_r. simpl.
    destruct fuel as [|fuel]; simpl; [lia|].
    rewrite lookup_ge_None_2 by lia. lia.
  - destruct fuel as [|fuel]; [simpl in Hfuel; lia|].
    cbn [pruneLoop expiredPrefix]. rewrite list_lookup_middle by done.
    destruct (Z.leb_spec t cutoff); [|lia].
    replace (pre ++ t :: rest) with ((pre ++ [t]) ++ rest)
      by (by rewrite <- app_assoc).
    replace (S (length pre)) with (length (pre ++ [t]))
      by (rewrite length_app; simpl; lia).
    rewrite IH by (simpl in Hfuel; lia).
    rewrite length_app. simpl. lia.
Qed.

Lemma pruneLoop_from_start cutoff ts fuel :
  (length ts <= fuel)%nat ->
  pruneLoop fuel cutoff ts 0 = expiredPrefix cutoff ts.
Proof.
  intros Hfuel. exact (pruneLoop_expiredPrefix cutoff ts [] fuel Hfuel).
Qed.

(** More fuel than the bucket is long changes nothing: the loop stops on
    its own condition. *)
Lemma pruneLoop_fuel cutoff ts fuel :
  (length ts <= fuel)%nat ->
  pruneLoop fuel cutoff ts 0 = pruneLoop (length ts) cutoff ts 0.
Proof.
  intros Hfuel. by rewrite !pruneLoop_from_start.
Qed.

Lemma prune_timestamps l entry now :
  timestamps (prune l entry now)
  = drop (expiredPrefix (now - windowMs l) (timestamps entry)) (timestamps entry).
Proof.
  unfold prune. rewrite pruneLoop_from_start by done.
  destruct (expiredPrefix _ _) eqn:E; simpl; reflexivity.
Qed.

Lemma prune_shrinks l entry now :
  (length (timestamps (prune l entry now)) <= length (timestamps entry))%nat.
Proof. rewrite prune_timestamps, length_drop. lia. Qed.

Lemma filter_keeps_all (P : Z -> Prop) `{!forall x, Decision (P x)} (ts : list Z) :
  (forall u, u ∈ ts -> P u) -> filter P ts = ts.
Proof.
  induction ts as [|t rest IH]; intros Hall; [done|].
  rewrite filter_cons_True by (apply Hall; left).
  f_equal. apply IH. intros u Hu. apply Hall. by right.
Qed.

(** On a chronological bucket the loop removes exactly the timestamps at
    or before the cutoff. *)
Lemma drop_expiredPrefix_chronological cutoff ts :
  chronological ts ->
  drop (expiredPrefix cutoff ts) ts = filter (fun t => cutoff < t) ts.
Proof.
  induction ts as [|t rest IH]; intros Hchr; [done|].
  destruct Hchr as [Hhead Hrest]. cbn [expiredPrefix].
  destruct (Z.leb_spec t cutoff).
  - rewrite filter_cons_False by lia. simpl. by apply IH.
  - rewrite drop_0. symmetry. apply filter_keeps_all.
    intros u [->|Hu]%elem_of_cons; [lia|]. specialize (Hhead u Hu). lia.
Qed.

Lemma chronological_drop n ts : chronological ts -> chronological (drop n ts).
Proof.
  revert n. induction ts as [|t rest IH]; intros n Hchr.
  - by rewrite drop_nil.
  - destruct n as [|n]; [done|]. simpl. apply IH. by destruct Hchr.
Qed.

Lemma chronological_snoc ts x :
  chronological ts -> (forall u, u ∈ ts -> u <= x) -> chronological (ts ++ [x]).
Proof.
  induction ts as [|t rest IH]; intros Hchr Hle.
  - simpl. split; [|done]. intros u Hu. by apply elem_of_nil in Hu.
  - destruct Hchr as [Hhead Hrest]. simpl. split.
    + intros u [Hu|Hu]%elem_of_app; [by apply Hhead|].
      apply list_elem_of_singleton in Hu as ->. apply Hle. left.
    + apply IH; [done|]. intros u Hu. apply Hle. by right.
Qed.

Lemma elem_of_drop_elem (n : nat) (ts : list Z) u : u ∈ drop n ts -> u ∈ ts.
Proof.
  revert n. induction ts as [|t rest IH]; intros n.
  - by rewrite drop_nil.
  - destruct n as [|n]; [done|]. simpl. intros Hu. right. by apply (IH n).
Qed.

(** ** What the operations store *)

Lemma entry_eta (entry : BucketEntry) : mkEntry (timestamps entry) = entry.
Proof. by destruct entry. Qed.

(** The bucket [tryAcquire] leaves under [key], and its answer, in terms of
    the pruned bucket. *)
Lemma tryAcquire_spec now key l :
  0 < maxRequests l ->
  let pruned := timestamps (prune l (mkEntry (bucketOf key l)) now) in
  let full := maxRequests l <=? Z.of_nat (length pruned) in
  tryAcquire now key l
  = (negb full,
     set_buckets
       (<[key := mkEntry (if full then pruned else pruned ++ [now])]> (buckets l)) l).
Proof.
  intros Hpos pruned full. unfold tryAcquire, getOrCreateEntry.
  destruct (Z.leb_spec (maxRequests l) 0); [lia|].
  subst pruned full. unfold bucketOf.
  destruct (buckets l !! key) as [entry|] eqn:Hk; simpl.
  - rewrite entry_eta.
    destruct (Z.leb_spec (maxRequests l)
                (Z.of_nat (length (timestamps (prune l entry now))))); simpl.
    + by rewrite entry_eta.
    + reflexivity.
  - unfold prune. simpl.
    destruct (Z.leb_spec (maxRequests l) (Z.of_nat 0)); [lia|]. simpl.
    unfold set_buckets. simpl. by rewrite insert_insert_eq.
Qed.

(** The bucket [getRemaining] leaves under [key], and its answer. *)
Lemma getRemaining_spec now key l entry :
  0 < maxRequests l ->
  buckets l !! key = Some entry ->
  getRemaining now key l
  = (Z.max 0 (maxRequests l - Z.of_nat (length (timestamps (prune l entry now)))),
     set_buckets (<[key := prune l entry now]> (buckets l)) l).
Proof.
  intros Hpos Hk. unfold getRemaining.
  destruct (Z.leb_spec (maxRequests l) 0); [lia|]. by rewrite Hk.
Qed.

Lemma getRemaining_unknown now key l :
  buckets l !! key = None -> (getRemaining now key l).2 = l.
Proof.
  intros Hk. unfold getRemaining.
  destruct (Z.leb_spec (maxRequests l) 0); [done|]. by rewrite Hk.
Qed.

Lemma step_config now o l :
  maxRequests (step now o l) = maxRequests l
  /\ windowMs (step now o l) = windowMs l.
Proof.
  destruct o as [key|key|key|]; simpl; try done.
  - unfold tryAcquire, getOrCreateEntry.
    destruct (Z.leb_spec (maxRequests l) 0); [done|].
    destruct (buckets l !! key); simpl;
      match goal with
      | |- context [Z.leb ?a ?b] => destruct (Z.leb_spec a b); done
      end.
  - unfold getRemaining.
    destruct (Z.leb_spec (maxRequests l) 0); [done|].
    by destruct (buckets l !! key).
Qed.

Lemma run_config sched : forall l,
  maxRequests (run sched l) = maxRequests l
  /\ windowMs (run sched l) = windowMs l.
Proof.
  induction sched as [|[now o] rest IH]; intros l; [done|].
  simpl. destruct (IH (step now o l)) as [-> ->]. apply step_config.
Qed.

(** ** Buckets stay chronological *)

Lemma bucketsInOrder_later t now l :
  t <= now -> bucketsInOrder t l -> bucketsInOrder now l.
Proof.
  intros Hle Hinv key entry Hk. destruct (Hinv key entry Hk) as [Hchr Hbound].
  split; [done|]. intros u Hu. specialize (Hbound u Hu). lia.
Qed.

Lemma prune_in_order t now l entry :
  t <= now ->
  chronological (timestamps entry) ->
  (forall u, u ∈ timestamps entry -> u <= t) ->
  chronological (timestamps (prune l entry now))
  /\ (forall u, u ∈ timestamps (prune l entry now) -> u <= t).
Proof.
  intros Hle Hchr Hbound. rewrite prune_timestamps. split.
  - by apply chronological_drop.
  - intros u Hu. apply Hbound. by apply elem_of_drop_elem in Hu.
Qed.

Lemma bucketOf_in_order t l key :
  bucketsInOrder t l ->
  chronological (bucketOf key l) /\ (forall u, u ∈ bucketOf key l -> u <= t).
Proof.
  intros Hinv. unfold bucketOf.
  destruct (buckets l !! key) as [entry|] eqn:Hk; [by apply (Hinv key)|].
  split; [done|]. intros u Hu. by apply elem_of_nil in Hu.
Qed.

Lemma step_bucketsInOrder t now o l :
  t <= now -> bucketsInOrder t l -> bucketsInOrder now (step now o l).
Proof.
  intros Hle Hinv. destruct o as [key|key|key|]; simpl.
  - destruct (Z_lt_le_dec 0 (maxRequests l)) as [Hpos|Hneg].
    + rewrite (tryAcquire_spec now key l Hpos). simpl.
      destruct (bucketOf_in_order t l key Hinv) as [Hchr Hbound].
      destruct (prune_in_order t now l (mkEntry (bucketOf key l)) Hle Hchr Hbound)
        as [Hchr' Hbound'].
      intros key' entry'. simpl.
      destruct (decide (key = key')) as [<-|Hne].
      * rewrite lookup_insert_eq. intros [= <-]. simpl.
        destruct (_ <=? _).
        -- split; [done|]. intros u Hu. specialize (Hbound' u Hu). lia.
        -- split.
           ++ apply chronological_snoc; [done|].
              intros u Hu. specialize (Hbound' u Hu). lia.
           ++ intros u [Hu|Hu]%elem_of_app.
              ** specialize (Hbound' u Hu). lia.
              ** apply list_elem_of_singleton in Hu as ->. lia.
      * rewrite lookup_insert_ne by done. intros Hk.
        by apply (bucketsInOrder_later t now l Hle Hinv key').
    + unfold tryAcquire. destruct (Z.leb_spec (maxRequests l) 0); [|lia].
      simpl. by apply (bucketsInOrder_later t).
  - destruct (Z_lt_le_dec 0 (maxRequests l)) as [Hpos|Hneg].
    + destruct (buckets l !! key) as [entry|] eqn:Hk.
      * rewrite (getRemaining_spec now key l entry Hpos Hk). simpl.
        destruct (Hinv key entry Hk) as [Hchr Hbound].
        destruct (prune_in_order t now l entry Hle Hchr Hbound) as [Hchr' Hbound'].
        intros key' entry'. simpl.
        destruct (decide (key = key')) as [<-|Hne].
        -- rewrite lookup_insert_eq. intros [= <-].
           split; [done|]. intros u Hu. specialize (Hbound' u Hu). lia.
        -- rewrite lookup_insert_ne by done. intros Hk'.
           by apply (bucketsInOrder_later t now l Hle Hinv key').
      * rewrite getRemaining_unknown by done. by apply (bucketsInOrder_later t).
    + unfold getRemaining. destruct (Z.leb_spec (maxRequests l) 0); [|lia].
      simpl. by apply (bucketsInOrder_later t).
  - intros key' entry'. unfold reset. simpl. intros Hk.
    apply lookup_delete_Some in Hk as [_ Hk].
    by apply (bucketsInOrder_later t now l Hle Hinv key').
  - intros key' entry'. unfold resetAll. simpl. by rewrite lookup_empty.
Qed.

Lemma run_bucketsInOrder sched : forall t l,
  monotone t sched -> bucketsInOrder t l ->
  bucketsInOrder (clockAfter t sched) (run sched l).
Proof.
  induction sched as [|[now o] rest IH]; intros t l Hmono Hinv; [done|].
  destruct Hmono as [Hle Hrest]. simpl. apply IH; [done|].
  by apply (step_bucketsInOrder t).
Qed.

Lemma new_bucketsInOrder t maxR w : bucketsInOrder t (new maxR w).
Proof. intros key entry. unfold new. simpl. by rewrite lookup_empty. Qed.

(** ** A limiter that admits nothing keeps no bucket *)

Lemma step_no_buckets now o l :
  maxRequests l <= 0 -> buckets l = ∅ -> buckets (step now o l) = ∅.
Proof.
  intros Hneg Hempty. destruct o as [key|key|key|]; simpl.
  - unfold tryAcquire. by destruct (Z.leb_spec (maxRequests l) 0); [|lia].
  - unfold getRemaining. by destruct (Z.leb_spec (maxRequests l) 0); [|lia].
  - rewrite Hempty. apply delete_empty.
  - done.
Qed.

Lemma run_no_buckets sched : forall l,
  maxRequests l <= 0 -> buckets l = ∅ -> buckets (run sched l) = ∅.
Proof.
  induction sched as [|[now o] rest IH]; intros l Hneg Hempty; [done|].
  simpl. apply IH.
  - by destruct (step_config now o l) as [-> _].
  - by apply step_no_buckets.
Qed.

Lemma bucketOf_insert key entry m l :
  bucketOf key (set_buckets (<[key := entry]> m) l) = timestamps entry.
Proof. unfold bucketOf. simpl. by rewrite lookup_insert_eq. Qed.

(** ** The pruning step *)

(** C6 as stated fails on the code: the loop of [prune] tests
    [timestamps[i] <= cutoff], so a timestamp equal to [now - windowMs],
    which is not older than [now - windowMs], is removed too. With
    [maxRequests = 1] and [windowMs = 1000], the acquisition made at 0 is
    pruned at 1000 and a new one is admitted. *)
Lemma prune_removes_boundary_timestamp :
  let l := run [(0, OpTryAcquire "k")] (new 1 1000) in
  buckets l !! "k" = Some (mkEntry [0])
  /\ timestamps (prune l (mkEntry [0]) 1000) <> pruneOlder l [0] 1000
  /\ (tryAcquire 1000 "k" l).1 = true.
Proof.
  vm_compute. repeat split. discriminate.
Qed.

(** C6, amended. On a limiter driven by its operations with a clock that
    does not go backwards, the pruning step of [tryAcquire] and
    [getRemaining] at time [now] removes from the key's bucket exactly the
    timestamps at or before [now - windowMs] and keeps all the others in
    order; every timestamp kept lies in the interval from [now - windowMs]
    (excluded) to [now], hence in the closed interval. [getRemaining]
    leaves the pruned bucket, [tryAcquire] the pruned bucket followed by
    [now] when it admits. *)
Theorem prune_keeps_window (maxR w t0 : Z) (sched : list (Z * Op))
    (now : Z) (key : string) :
  monotone t0 sched ->
  clockAfter t0 sched <= now ->
  let l := run sched (new maxR w) in
  let kept := pruneUpTo l (bucketOf key l) now in
  (forall entry,
     buckets l !! key = Some entry ->
     timestamps (prune l entry now) = pruneUpTo l (timestamps entry) now)
  /\ (forall u, u ∈ bucketOf key l ->
        (u ∈ kept <-> ~ (u <= now - windowMs l)))
  /\ (forall u, u ∈ kept -> now - windowMs l < u <= now)
  /\ (forall u, u ∈ kept -> now - windowMs l <= u <= now)
  /\ bucketOf key (getRemaining now key l).2 = kept
  /\ bucketOf key (tryAcquire now key l).2
     = (if (tryAcquire now key l).1 then kept ++ [now] else kept).
Proof.
  intros Hmono Hnow l kept.
  assert (Hord : bucketsInOrder (clockAfter t0 sched) l).
  { apply run_bucketsInOrder; [done|]. apply new_bucketsInOrder. }
  destruct (bucketOf_in_order _ l key Hord) as [Hchr Hbound].
  assert (Hinterval : forall u, u ∈ kept -> now - windowMs l < u <= now).
  { intros u [Hu Hin]%list_elem_of_filter. specialize (Hbound u Hin). lia. }
  assert (Hprune : forall entry,
            chronological (timestamps entry) ->
            timestamps (prune l entry now) = pruneUpTo l (timestamps entry) now).
  { intros entry Hc. rewrite prune_timestamps.
    by apply drop_expiredPrefix_chronological. }
  split; [|split; [|split; [|split; [|split]]]].
  - intros entry Hk. apply Hprune. by apply (Hord key entry).
  - intros u Hin. unfold kept, pruneUpTo. rewrite list_elem_of_filter.
    split; [intros [? _]; lia | intros ?; split; [lia | done]].
  - exact Hinterval.
  - intros u Hu. specialize (Hinterval u Hu). lia.
  - destruct (Z_lt_le_dec 0 (maxRequests l)) as [Hpos|Hneg].
    + unfold kept, bucketOf at 2.
      destruct (buckets l !! key) as [entry|] eqn:Hk.
      * rewrite (getRemaining_spec now key l entry Hpos Hk). simpl.
        rewrite bucketOf_insert. apply Hprune. by apply (Hord key entry).
      * rewrite getRemaining_unknown by done. unfold bucketOf. by rewrite Hk.
    + assert (Hempty : buckets l = ∅).
      { apply run_no_buckets; [|done].
        destruct (run_config sched (new maxR w)) as [Hm _].
        fold l in Hm. by rewrite <- Hm. }
      unfold getRemaining. destruct (Z.leb_spec (maxRequests l) 0); [|lia].
      simpl. unfold kept, bucketOf. by rewrite Hempty, lookup_empty.
  - destruct (Z_lt_le_dec 0 (maxRequests l)) as [Hpos|Hneg].
    + rewrite (tryAcquire_spec now key l Hpos). simpl.
      rewrite bucketOf_insert. simpl.
      rewrite (Hprune (mkEntry (bucketOf key l))) by done. simpl. fold kept.
      by destruct (_ <=? _).
    + assert (Hempty : buckets l = ∅).
      { apply run_no_buckets; [|done].
        destruct (run_config sched (new maxR w)) as [Hm _].
        fold l in Hm. by rewrite <- Hm. }
      unfold tryAcquire. destruct (Z.leb_spec (maxRequests l) 0); [|lia].
      simpl. unfold kept, bucketOf. by rewrite Hempty, lookup_empty.
Qed.

(** The test "uses sliding window": three acquisitions at 0, 400 and 800
    with [windowMs = 1000]; the acquisition at 1001 prunes the one made at
    0 only and is recorded. *)
Lemma prune_keeps_window_witness :
  bucketOf "k"
    (tryAcquire 1001 "k"
       (run [(0, OpTryAcquire "k"); (400, OpTryAcquire "k");
             (800, OpTryAcquire "k")] (new 3 1000))).2
  = [400; 800; 1001].
Proof.
  destruct (prune_keeps_window 3 1000 0
              [(0, OpTryAcquire "k"); (400, OpTryAcquire "k");
               (800, OpTryAcquire "k")] 1001 "k")
    as (_ & _ & _ & _ & _ & Hacq).
  - vm_compute. repeat split; discriminate.
  - vm_compute. discriminate.
  - rewrite Hacq. vm_compute. reflexivity.
Defined.

(** ** The memory bound *)

Lemma bucketOf_bounded key l :
  0 < maxRequests l -> bucketsBounded l ->
  Z.of_nat (length (bucketOf key l)) <= maxRequests l.
Proof.
  intros Hpos Hinv. unfold bucketOf.
  destruct (buckets l !! key) as [entry|] eqn:Hk; [by apply (Hinv key)|].
  simpl. lia.
Qed.

Lemma step_bucketsBounded now o l :
  bucketsBounded l -> bucketsBounded (step now o l).
Proof.
  intros Hinv. destruct o as [key|key|key|]; simpl.
  - destruct (Z_lt_le_dec 0 (maxRequests l)) as [Hpos|Hneg].
    + rewrite (tryAcquire_spec now key l Hpos). simpl.
      pose proof (bucketOf_bounded key l Hpos Hinv) as Hb.
      pose proof (prune_shrinks l (mkEntry (bucketOf key l)) now) as Hs.
      simpl in Hs.
      intros key' entry'. simpl.
      destruct (decide (key = key')) as [<-|Hne].
      * rewrite lookup_insert_eq. intros [= <-]. simpl.
        destruct (Z.leb_spec (maxRequests l)
          (Z.of_nat (length (timestamps (prune l (mkEntry (bucketOf key l)) now))))).
        -- lia.
        -- rewrite length_app. simpl. lia.
      * rewrite lookup_insert_ne by done. apply Hinv.
    + unfold tryAcquire. by destruct (Z.leb_spec (maxRequests l) 0); [|lia].
  - destruct (Z_lt_le_dec 0 (maxRequests l)) as [Hpos|Hneg].
    + destruct (buckets l !! key) as [entry|] eqn:Hk.
      * rewrite (getRemaining_spec now key l entry Hpos Hk). simpl.
        pose proof (prune_shrinks l entry now) as Hs.
        pose proof (Hinv key entry Hk) as Hb.
        intros key' entry'. simpl.
        destruct (decide (key = key')) as [<-|Hne].
        -- rewrite lookup_insert_eq. intros [= <-]. lia.
        -- rewrite lookup_insert_ne by done. apply Hinv.
      * by rewrite getRemaining_unknown.
    + unfold getRemaining. by destruct (Z.leb_spec (maxRequests l) 0); [|lia].
  - intros key' entry'. unfold reset. simpl. intros Hk.
    apply lookup_delete_Some in Hk as [_ Hk]. by apply (Hinv key').
  - intros key' entry'. unfold resetAll. simpl. by rewrite lookup_empty.
Qed.

Lemma run_bucketsBounded sched : forall l,
  bucketsBounded l -> bucketsBounded (run sched l).
Proof.
  induction sched as [|[now o] rest IH]; intros l Hinv; [done|].
  simpl. apply IH. by apply step_bucketsBounded.
Qed.

(** C7. After any schedule of operations on a new limiter, however long,
    every bucket holds at most [maxRequests] timestamps. A [tryAcquire]
    that finds [maxRequests] or more timestamps after pruning answers
    [false] and leaves the pruned bucket, recording nothing; one that
    answers [true] leaves a bucket of at most [maxRequests] timestamps. *)
Theorem buckets_stay_bounded (maxR w : Z) (sched : list (Z * Op)) :
  (forall key entry,
     buckets (run sched (new maxR w)) !! key = Some entry ->
     Z.of_nat (length (timestamps entry)) <= maxR)
  /\ (forall l now key,
        0 < maxRequests l ->
        let pruned := timestamps (prune l (mkEntry (bucketOf key l)) now) in
        maxRequests l <= Z.of_nat (length pruned) ->
        (tryAcquire now key l).1 = false
        /\ bucketOf key (tryAcquire now key l).2 = pruned)
  /\ (forall l now key,
        (tryAcquire now key l).1 = true ->
        Z.of_nat (length (bucketOf key (tryAcquire now key l).2)) <= maxRequests l).
Proof.
  split; [|split].
  - intros key entry Hk.
    assert (Hinv : bucketsBounded (run sched (new maxR w))).
    { apply run_bucketsBounded. intros k e. unfold new. simpl.
      by rewrite lookup_empty. }
    specialize (Hinv key entry Hk).
    destruct (run_config sched (new maxR w)) as [Hm _].
    rewrite Hm in Hinv. exact Hinv.
  - intros l now key Hpos pruned Hfull.
    rewrite (tryAcquire_spec now key l Hpos). simpl. rewrite bucketOf_insert.
    fold pruned. destruct (Z.leb_spec (maxRequests l) (Z.of_nat (length pruned)));
      [done | lia].
  - intros l now key Hok.
    destruct (Z_lt_le_dec 0 (maxRequests l)) as [Hpos|Hneg].
    + rewrite (tryAcquire_spec now key l Hpos) in Hok |- *. simpl in *.
      rewrite bucketOf_insert. simpl.
      destruct (Z.leb_spec (maxRequests l)
        (Z.of_nat (length (timestamps (prune l (mkEntry (bucketOf key l)) now)))));
        [done|].
      rewrite length_app. simpl. lia.
    + unfold tryAcquire in Hok.
      by destruct (Z.leb_spec (maxRequests l) 0); [|lia].
Qed.

(** The test "rejects requests exceeding maxRequests within the window":
    with [maxRequests = 2] the third acquisition is refused and the
    bucket keeps its two timestamps. *)
Lemma buckets_stay_bounded_witness :
  (tryAcquire 5 "user-1"
     (run [(0, OpTryAcquire "user-1"); (1, OpTryAcquire "user-1")]
        (new 2 1000))).1 = false
  /\ bucketOf "user-1"
       (tryAcquire 5 "user-1"
          (run [(0, OpTryAcquire "user-1"); (1, OpTryAcquire "user-1")]
             (new 2 1000))).2 = [0; 1]
  /\ Z.of_nat (length (timestamps (mkEntry [0; 1]))) <= 2.
Proof.
  destruct (buckets_stay_bounded 2 1000
              [(0, OpTryAcquire "user-1"); (1, OpTryAcquire "user-1")])
    as (Hbound & Hfull & _).
  split; [|split].
  - apply (Hfull (run [(0, OpTryAcquire "user-1"); (1, OpTryAcquire "user-1")]
                    (new 2 1000)) 5 "user-1");
      vm_compute; [reflexivity | discriminate].
  - apply (Hfull (run [(0, OpTryAcquire "user-1"); (1, OpTryAcquire "user-1")]
                    (new 2 1000)) 5 "user-1");
      vm_compute; [reflexivity | discriminate].
  - apply (Hbound "user-1" (mkEntry [0; 1])). vm_compute. reflexivity.
Defined.

End RateLimiterFacts.

(* ===================================================================== *)
(** * Properties of the node registry                                     *)
(* ===================================================================== *)

Module NodeRegistryFacts.
Import NodeRegistry.

(** ** The pending bound *)

Lemma invoke_full now node cmd params timeout r connId c :
  resolveNode node r = Some (connId, c) ->
  (MAX_PENDING <= size (pending c))%nat ->
  invoke now node cmd params timeout r
  = (Immediate (Failed (mkError QUEUE_FULL "pending invoke limit exceeded")), r).
Proof.
  intros Hres Hfull. unfold invoke. rewrite Hres. by rewrite decide_True.
Qed.

Lemma invoke_admitted now node cmd params timeout r connId c :
  resolveNode node r = Some (connId, c) ->
  (size (pending c) < MAX_PENDING)%nat ->
  invoke now node cmd params timeout r
  = (Deferred (nextId r),
     {| connections :=
          <[connId := mkConnection (nodeId c)
                        (<[nextId r := mkPending cmd now timeout]> (pending c))]>
            (connections r);
        nodes := nodes r;
        nextId := S (nextId r);
        sent := sent r ++ [mkFrame connId (nextId r) cmd params];
        resolved := resolved r |}).
Proof.
  intros Hres Hfree. unfold invoke. rewrite Hres. by rewrite decide_False by lia.
Qed.

Lemma resolveNode_Some node r connId c :
  nodes r !! node = Some connId ->
  connections r !! connId = Some c ->
  resolveNode node r = Some (connId, c).
Proof. intros Hn Hc. unfold resolveNode. by rewrite Hn, Hc. Qed.

(** Unanswered invokes pile up one by one while there is room. *)
Lemma invokeMany_fills now node cmd timeout n : forall r connId c,
  nodes r !! node = Some connId ->
  connections r !! connId = Some c ->
  (forall i, is_Some (pending c !! i) -> (i < nextId r)%nat) ->
  (size (pending c) + n <= MAX_PENDING)%nat ->
  let r' := invokeMany n now node cmd timeout r in
  nodes r' !! node = Some connId
  /\ (exists c', connections r' !! connId = Some c'
                 /\ size (pending c') = (size (pending c) + n)%nat)
  /\ length (sent r') = (length (sent r) + n)%nat
  /\ resolved r' = resolved r.
Proof.
  induction n as [|n IH]; intros r connId c Hn Hc Hbelow Hroom.
  - simpl. split; [done|]. split; [|split; [lia|done]].
    exists c. split; [done|lia].
  - cbn [invokeMany].
    rewrite (invoke_admitted now node cmd None timeout r connId c)
      by (by apply resolveNode_Some || lia).
    cbn [snd].
    set (c1 := mkConnection (nodeId c)
                 (<[nextId r := mkPending cmd now timeout]> (pending c))).
    set (r1 := mkRegistry _ _ _ _ _).
    assert (Hfresh : pending c !! nextId r = None).
    { destruct (pending c !! nextId r) eqn:E; [|done].
      assert (nextId r < nextId r)%nat by (apply Hbelow; by rewrite E). lia. }
    assert (Hsize : size (pending c1) = S (size (pending c))).
    { subst c1. simpl. by apply map_size_insert_None. }
    destruct (IH r1 connId c1) as (Hn' & (c' & Hc' & Hs') & Hsent & Hres).
    + done.
    + subst r1. simpl. apply lookup_insert_eq.
    + intros i Hi. subst c1 r1. simpl in *.
      apply lookup_insert_is_Some in Hi as [<-|[_ Hi]]; [lia|].
      specialize (Hbelow i Hi). lia.
    + lia.
    + split; [done|]. split; [|split].
      * exists c'. split; [done|]. lia.
      * rewrite Hsent. subst r1. simpl. rewrite length_app. simpl. lia.
      * rewrite Hres. done.
Qed.

(** C3. An invoke to a node whose connection already holds the maximum of
    1000 pending calls resolves at once with [ok: false] and code
    QUEUE_FULL, and leaves the registry as it was: no frame sent, no
    PendingCall created. In particular, after 1000 unanswered invokes to a
    node that has just registered, 1000 frames were sent, 1000 calls are
    pending, and the next invoke is answered QUEUE_FULL with the frames
    and the pending set unchanged. *)
Theorem queue_full_rejects :
  (forall now node cmd params timeout r connId c,
     resolveNode node r = Some (connId, c) ->
     size (pending c) = MAX_PENDING ->
     let out := invoke now node cmd params timeout r in
     (exists msg, out.1 = Immediate (Failed (mkError QUEUE_FULL msg)))
     /\ sent out.2 = sent r
     /\ connections out.2 = connections r
     /\ out.2 = r)
  /\ (forall now connId node cmd params timeout,
        let r := invokeMany 1000 now node cmd timeout
                   (register connId node empty) in
        let out := invoke now node cmd params timeout r in
        length (sent r) = 1000%nat
        /\ (exists c, resolveNode node r = Some (connId, c)
                      /\ size (pending c) = 1000%nat)
        /\ (exists msg, out.1 = Immediate (Failed (mkError QUEUE_FULL msg)))
        /\ out.2 = r).
Proof.
  split.
  - intros now node cmd params timeout r connId c Hres Hsize out. subst out.
    rewrite (invoke_full now node cmd params timeout r connId c Hres) by lia.
    simpl. split; [by eexists|done].
  - intros now connId node cmd params timeout r out.
    destruct (invokeMany_fills now node cmd timeout 1000
                (register connId node empty) connId (mkConnection node ∅))
      as (Hn & (c & Hc & Hsize) & Hsent & _).
    + apply lookup_insert_eq.
    + apply lookup_insert_eq.
    + cbn [pending]. intros i Hi. rewrite lookup_empty in Hi. by destruct Hi.
    + cbn [pending]. rewrite map_size_empty. unfold MAX_PENDING. lia.
    + cbn [pending] in Hsize. rewrite map_size_empty in Hsize.
      change (sent (register connId node empty)) with (@nil Frame) in Hsent.
      cbn [length] in Hsent.
      pose proof (resolveNode_Some node _ connId c Hn Hc) as Hres.
      split; [exact Hsent|]. split; [exists c; split; [exact Hres | exact Hsize]|].
      subst out r.
      rewrite (invoke_full now node cmd params timeout _ connId c Hres)
        by (unfold MAX_PENDING; lia).
      split; [by eexists|reflexivity].
Qed.

(** A registry whose connection conn-1 of node-1 holds 1000 pending calls
    answers the next invoke QUEUE_FULL and stays as it is. *)
Lemma queue_full_rejects_witness :
  let c := mkConnection "node-1"
             (list_to_map ((fun i => (i, mkPending "test.cmd" 0 60000)) <$> seq 0 1000)) in
  let r := {| connections := {["conn-1" := c]};
              nodes := {["node-1" := "conn-1"]};
              nextId := 1000; sent := []; resolved := [] |} in
  sent (invoke 0 "node-1" "test.cmd" None 60000 r).2 = sent r
  /\ (invoke 0 "node-1" "test.cmd" None 60000 r).2 = r.
Proof.
  intros c r. destruct queue_full_rejects as [Hfull _].
  destruct (Hfull 0 "node-1" "test.cmd" None 60000 r "conn-1" c)
    as (_ & Hsent & _ & Hsame).
  - reflexivity.
  - vm_compute. reflexivity.
  - split; [exact Hsent | exact Hsame].
Defined.

(** ** Which calls are in flight after each operation *)

Lemma inFlight_register c n r c' i :
  inFlight c' i (register c n r) <-> c' <> c /\ inFlight c' i r.
Proof.
  unfold inFlight, register. simpl. split.
  - intros (conn & Hc & Hp).
    apply lookup_insert_Some in Hc as [[<- <-]|[Hne Hc]].
    + simpl in Hp. rewrite lookup_empty in Hp. by destruct Hp.
    + split; [done|]. by exists conn.
  - intros (Hne & conn & Hc & Hp). exists conn.
    by rewrite lookup_insert_ne.
Qed.

Lemma unregister_absent c r :
  connections r !! c = None -> unregister c r = r.
Proof. intros Hc. unfold unregister. by rewrite Hc. Qed.

Lemma inFlight_unregister c r c' i :
  inFlight c' i (unregister c r) <-> c' <> c /\ inFlight c' i r.
Proof.
  unfold unregister. destruct (connections r !! c) as [conn|] eqn:Hc.
  - unfold inFlight. simpl. split.
    + intros (conn' & Hc' & Hp). apply lookup_delete_Some in Hc' as [Hne Hc'].
      split; [done|]. by exists conn'.
    + intros (Hne & conn' & Hc' & Hp). exists conn'.
      by rewrite lookup_delete_ne.
  - split; [|by intros [_ ?]].
    intros Hin. split; [|done]. intros ->.
    destruct Hin as (conn' & Hc' & _). congruence.
Qed.

Lemma pending_keys conn i :
  i ∈ (map_to_list (pending conn)).*1 <-> is_Some (pending conn !! i).
Proof.
  rewrite list_elem_of_fmap. split.
  - intros ([k v] & -> & Hin). apply elem_of_map_to_list in Hin. by exists v.
  - intros [v Hv]. exists (i, v). split; [done|]. by apply elem_of_map_to_list.
Qed.

Lemma resolved_unregister c r conn :
  connections r !! c = Some conn ->
  resolved (unregister c r)
  = resolved r ++ ((fun kv => (kv.1, disconnected)) <$> map_to_list (pending conn)).
Proof. intros Hc. unfold unregister. by rewrite Hc. Qed.

Lemma disconnected_keys conn :
  ((fun kv : nat * PendingCall => (kv.1, disconnected)) <$> map_to_list (pending conn)).*1
  = (map_to_list (pending conn)).*1.
Proof. rewrite <- list_fmap_compose. by apply list_fmap_ext. Qed.

Lemma settle_absent c i res r :
  ~ inFlight c i r -> settle c i res r = r.
Proof.
  intros Hno. unfold settle.
  destruct (connections r !! c) as [conn|] eqn:Hc; [|done].
  destruct (pending conn !! i) as [pc|] eqn:Hp; [|done].
  destruct Hno. exists conn. split; [done|]. by rewrite Hp.
Qed.

Lemma settle_present c i res r conn :
  connections r !! c = Some conn ->
  is_Some (pending conn !! i) ->
  settle c i res r
  = {| connections :=
         <[c := mkConnection (nodeId conn) (delete i (pending conn))]>
           (connections r);
       nodes := nodes r; nextId := nextId r; sent := sent r;
       resolved := resolved r ++ [(i, res)] |}.
Proof.
  intros Hc [pc Hp]. unfold settle. by rewrite Hc, Hp.
Qed.

Lemma inFlight_settle c i res r c' i' :
  inFlight c i r ->
  inFlight c' i' (settle c i res r)
  <-> inFlight c' i' r /\ ~ (c' = c /\ i' = i).
Proof.
  intros (conn & Hc & Hp). rewrite (settle_present c i res r conn Hc Hp).
  unfold inFlight. simpl. split.
  - intros (conn' & Hc' & Hp').
    apply lookup_insert_Some in Hc' as [[<- <-]|[Hne Hc']].
    + simpl in Hp'. apply lookup_delete_is_Some in Hp' as [Hne Hp'].
      split; [by exists conn|]. intros [_ ->]. done.
    + split; [by exists conn'|]. intros [-> _]. done.
  - intros [(conn' & Hc' & Hp') Hne].
    destruct (decide (c' = c)) as [->|Hcc].
    + exists (mkConnection (nodeId conn) (delete i (pending conn))).
      rewrite lookup_insert_eq. split; [done|]. simpl.
      apply lookup_delete_is_Some. split; [naive_solver|]. congruence.
    + exists conn'. by rewrite lookup_insert_ne.
Qed.

Lemma resolveNode_inv node r connId c :
  resolveNode node r = Some (connId, c) -> connections r !! connId = Some c.
Proof.
  unfold resolveNode. destruct (nodes r !! node) as [k|]; [|done].
  destruct (connections r !! k) as [c'|] eqn:Hc; [|done].
  by intros [= <- <-].
Qed.

Lemma invoke_cases now node cmd params timeout r :
  (invoke now node cmd params timeout r).2 = r
  \/ exists connId c,
       connections r !! connId = Some c
       /\ (invoke now node cmd params timeout r).2
          = {| connections :=
                 <[connId := mkConnection (nodeId c)
                               (<[nextId r := mkPending cmd now timeout]> (pending c))]>
                   (connections r);
               nodes := nodes r;
               nextId := S (nextId r);
               sent := sent r ++ [mkFrame connId (nextId r) cmd params];
               resolved := resolved r |}.
Proof.
  unfold invoke. destruct (resolveNode node r) as [[connId c]|] eqn:Hres;
    [|by left].
  case_decide; [by left|]. right. exists connId, c.
  split; [by apply (resolveNode_inv node)|done].
Qed.

Lemma classic_inFlight c i r : inFlight c i r \/ ~ inFlight c i r.
Proof.
  unfold inFlight. destruct (connections r !! c) as [conn|] eqn:Hc.
  - destruct (pending conn !! i) as [pc|] eqn:Hp.
    + left. exists conn. split; [done|]. by rewrite Hp.
    + right. intros (conn' & Hc' & Hp'). simplify_eq. rewrite Hp in Hp'.
      by destruct Hp'.
  - right. intros (conn' & Hc' & _). congruence.
Qed.


(** ** Consistency is kept by every event *)

Lemma empty_consistent : consistent empty.
Proof.
  split.
  - intros c i (conn & Hc & _). simpl in Hc. by rewrite lookup_empty in Hc.
  - intros c i (conn & Hc & _). simpl in Hc. by rewrite lookup_empty in Hc.
  - intros c1 c2 i (conn & Hc & _). simpl in Hc. by rewrite lookup_empty in Hc.
  - intros i Hi. simpl in Hi. by apply elem_of_nil in Hi.
  - simpl. apply NoDup_nil_2.
Qed.

Lemma register_consistent c n r : consistent r -> consistent (register c n r).
Proof.
  intros [Hb Hu Ho Hrb Hnd]. split.
  - intros c' i [_ Hin]%inFlight_register. by apply (Hb c').
  - intros c' i [_ Hin]%inFlight_register. by apply (Hu c').
  - intros c1 c2 i [_ H1]%inFlight_register [_ H2]%inFlight_register.
    by apply (Ho c1 c2 i).
  - exact Hrb.
  - exact Hnd.
Qed.

Lemma unregister_consistent c r : consistent r -> consistent (unregister c r).
Proof.
  intros Hcons. destruct (connections r !! c) as [conn|] eqn:Hc;
    [|by rewrite unregister_absent].
  destruct Hcons as [Hb Hu Ho Hrb Hnd].
  assert (Hkeys : (resolved (unregister c r)).*1
                  = (resolved r).*1 ++ (map_to_list (pending conn)).*1).
  { rewrite (resolved_unregister c r conn Hc), fmap_app.
    by rewrite disconnected_keys. }
  assert (Hnext : nextId (unregister c r) = nextId r).
  { unfold unregister. by rewrite Hc. }
  split.
  - intros c' i [_ Hin]%inFlight_unregister. rewrite Hnext. by apply (Hb c').
  - intros c' i [Hne Hin]%inFlight_unregister. rewrite Hkeys.
    apply not_elem_of_app. split; [by apply (Hu c')|].
    intros Hk%pending_keys. apply Hne.
    apply (Ho c' c i); [done|]. by exists conn.
  - intros c1 c2 i [_ H1]%inFlight_unregister [_ H2]%inFlight_unregister.
    by apply (Ho c1 c2 i).
  - intros i. rewrite Hkeys, Hnext. intros [Hi|Hi]%elem_of_app.
    + by apply Hrb.
    + apply pending_keys in Hi. apply (Hb c). by exists conn.
  - rewrite Hkeys. apply NoDup_app. split; [done|]. split.
    + intros i Hi Hk%pending_keys. apply (Hu c i); [|done]. by exists conn.
    + apply NoDup_fst_map_to_list.
Qed.

Lemma settle_consistent c i res r : consistent r -> consistent (settle c i res r).
Proof.
  intros Hcons. destruct (classic_inFlight c i r) as [Hin|Hno];
    [|by rewrite settle_absent].
  pose proof Hin as (conn & Hc & Hp).
  assert (Hres : resolved (settle c i res r) = resolved r ++ [(i, res)])
    by (by rewrite (settle_present c i res r conn Hc Hp)).
  assert (Hnext : nextId (settle c i res r) = nextId r)
    by (by rewrite (settle_present c i res r conn Hc Hp)).
  destruct Hcons as [Hb Hu Ho Hrb Hnd]. split.
  - intros c' i' [Hin' _]%inFlight_settle; [|done]. rewrite Hnext.
    by apply (Hb c').
  - intros c' i' [Hin' Hne]%inFlight_settle; [|done].
    rewrite Hres, fmap_app. apply not_elem_of_app. split; [by apply (Hu c')|].
    simpl. intros ->%list_elem_of_singleton. apply Hne.
    split; [|done]. by apply (Ho c' c i).
  - intros c1 c2 i' [H1 _]%inFlight_settle [H2 _]%inFlight_settle; try done.
    by apply (Ho c1 c2 i').
  - intros i'. rewrite Hres, fmap_app, Hnext. intros [Hi|Hi]%elem_of_app.
    + by apply Hrb.
    + simpl in Hi. apply list_elem_of_singleton in Hi as ->. by apply (Hb c).
  - rewrite Hres, fmap_app. apply NoDup_app. split; [done|]. split.
    + intros i' Hi'. simpl. intros ->%list_elem_of_singleton.
      by apply (Hu c i).
    + apply NoDup_singleton.
Qed.

Lemma invoke_consistent now node cmd params timeout r :
  consistent r -> consistent (invoke now node cmd params timeout r).2.
Proof.
  intros Hcons.
  destruct (invoke_cases now node cmd params timeout r)
    as [->|(connId & c & Hc & ->)]; [done|].
  destruct Hcons as [Hb Hu Ho Hrb Hnd].
  assert (Hold : forall c' i',
            inFlight c' i'
              {| connections :=
                   <[connId := mkConnection (nodeId c)
                      (<[nextId r := mkPending cmd now timeout]> (pending c))]>
                     (connections r);
                 nodes := nodes r; nextId := S (nextId r);
                 sent := sent r ++ [mkFrame connId (nextId r) cmd params];
                 resolved := resolved r |}
            -> inFlight c' i' r \/ (c' = connId /\ i' = nextId r)).
  { intros c' i' (conn' & Hc' & Hp'). simpl in Hc'.
    apply lookup_insert_Some in Hc' as [[<- <-]|[Hne Hc']].
    - simpl in Hp'. apply lookup_insert_is_Some in Hp' as [<-|[_ Hp']].
      + by right.
      + left. by exists c.
    - left. by exists conn'. }
  split; simpl.
  - intros c' i' [Hin|[_ ->]]%Hold; [|lia].
    specialize (Hb c' i' Hin). lia.
  - intros c' i' [Hin|[_ ->]]%Hold; [by apply (Hu c')|].
    intros Hi%Hrb. lia.
  - intros c1 c2 i' [H1|[-> ->]]%Hold [H2|[-> E]]%Hold.
    + by apply (Ho c1 c2 i').
    + subst i'. specialize (Hb c1 _ H1). lia.
    + specialize (Hb c2 _ H2). lia.
    + done.
  - intros i' Hi%Hrb. lia.
  - exact Hnd.
Qed.

Lemma step_consistent e r : consistent r -> consistent (step e r).
Proof.
  destruct e; simpl.
  - apply register_consistent.
  - apply unregister_consistent.
  - apply invoke_consistent.
  - apply settle_consistent.
  - apply settle_consistent.
Qed.

Lemma run_consistent evs : forall r, consistent r -> consistent (run evs r).
Proof.
  induction evs as [|e rest IH]; intros r Hcons; [done|].
  simpl. apply IH. by apply step_consistent.
Qed.

(** ** Exactly-once resolution *)

Lemma resolved_extends e r :
  exists extra, resolved (step e r) = resolved r ++ extra.
Proof.
  destruct e as [c n|c|now node cmd params timeout|c i res|c i]; simpl.
  - exists []. by rewrite app_nil_r.
  - unfold unregister. destruct (connections r !! c) as [conn|];
      [by eexists | exists []; by rewrite app_nil_r].
  - destruct (invoke_cases now node cmd params timeout r)
      as [->|(connId & conn & _ & ->)]; exists []; by rewrite app_nil_r.
  - destruct (classic_inFlight c i r) as [(conn & Hc & Hp)|Hno].
    + unfold handleResponse. rewrite (settle_present c i res r conn Hc Hp).
      by eexists.
    + unfold handleResponse. rewrite settle_absent by done.
      exists []. by rewrite app_nil_r.
  - destruct (classic_inFlight c i r) as [(conn & Hc & Hp)|Hno].
    + unfold handleTimeout. rewrite (settle_present c i _ r conn Hc Hp).
      by eexists.
    + unfold handleTimeout. rewrite settle_absent by done.
      exists []. by rewrite app_nil_r.
Qed.

Lemma run_resolved_mono evs : forall r x,
  x ∈ resolved r -> x ∈ resolved (run evs r).
Proof.
  induction evs as [|e rest IH]; intros r x Hx; [done|].
  simpl. apply IH. destruct (resolved_extends e r) as [extra ->].
  apply elem_of_app. by left.
Qed.

(** The first path to reach a call that is in flight fires its
    continuation with that path's result. *)
Lemma reach_resolves c i e res r :
  inFlight c i r -> reaches c i e = Some res ->
  (i, res) ∈ resolved (step e r).
Proof.
  intros (conn & Hc & Hp) Hreach.
  destruct e as [c' n|c'|now node cmd params timeout|c' i' res'|c' i'];
    simpl in Hreach; try done.
  - case_decide as Heq; [|done]. subst c'. injection Hreach as <-. simpl.
    rewrite (resolved_unregister c r conn Hc). apply elem_of_app. right.
    destruct Hp as [pc Hp]. apply list_elem_of_fmap. exists (i, pc).
    split; [done|]. by apply elem_of_map_to_list.
  - case_decide as Heq; [|done]. destruct Heq as [-> ->].
    injection Hreach as <-. simpl. unfold handleResponse.
    rewrite (settle_present c i res' r conn Hc Hp). simpl.
    apply elem_of_app. right. by apply list_elem_of_singleton.
  - case_decide as Heq; [|done]. destruct Heq as [-> ->].
    injection Hreach as <-. simpl. unfold handleTimeout.
    rewrite (settle_present c i timedOut r conn Hc Hp). simpl.
    apply elem_of_app. right. by apply list_elem_of_singleton.
Qed.

Lemma invoke_keeps_inFlight now node cmd params timeout r c i :
  inFlight c i r -> inFlight c i (invoke now node cmd params timeout r).2.
Proof.
  intros (conn & Hc & Hp).
  destruct (invoke_cases now node cmd params timeout r)
    as [->|(connId & conn' & Hc' & ->)]; [by exists conn|].
  unfold inFlight. simpl. destruct (decide (connId = c)) as [->|Hne].
  - rewrite lookup_insert_eq. eexists. split; [done|]. simpl.
    assert (conn' = conn) as -> by congruence.
    apply lookup_insert_is_Some'. by right.
  - exists conn. by rewrite lookup_insert_ne.
Qed.

(** Any other event leaves the call in flight. *)
Lemma unreached_stays c i e r :
  inFlight c i r -> reaches c i e = None -> ~ replaces c e ->
  inFlight c i (step e r).
Proof.
  intros Hin Hreach Hrepl.
  destruct e as [c' n|c'|now node cmd params timeout|c' i' res'|c' i'];
    simpl in *.
  - apply inFlight_register. split; [|done]. intros ->. by apply Hrepl.
  - case_decide as Heq; [done|]. apply inFlight_unregister.
    split; [|done]. intros ->. done.
  - by apply invoke_keeps_inFlight.
  - case_decide as Heq; [done|]. unfold handleResponse.
    destruct (classic_inFlight c' i' r) as [Hin'|Hno].
    + apply inFlight_settle; [done|]. split; [done|].
      intros [-> ->]. by apply Heq.
    + by rewrite settle_absent.
  - case_decide as Heq; [done|]. unfold handleTimeout.
    destruct (classic_inFlight c' i' r) as [Hin'|Hno].
    + apply inFlight_settle; [done|]. split; [done|].
      intros [-> ->]. by apply Heq.
    + by rewrite settle_absent.
Qed.

Lemma filter_id_none (i : nat) (l : list (nat * InvokeResult)) :
  i ∉ l.*1 -> filter (fun p => p.1 = i) l = [].
Proof.
  induction l as [|p l IH]; intros Hno; [done|].
  rewrite fmap_cons in Hno. apply not_elem_of_cons in Hno as [Hne Hno].
  rewrite filter_cons_False by (simpl; congruence). by apply IH.
Qed.

Lemma filter_id_once (i : nat) (res : InvokeResult) (l : list (nat * InvokeResult)) :
  NoDup l.*1 -> (i, res) ∈ l -> filter (fun p => p.1 = i) l = [(i, res)].
Proof.
  induction l as [|p l IH]; intros Hnd Hin; [by apply elem_of_nil in Hin|].
  rewrite fmap_cons in Hnd. apply NoDup_cons in Hnd as [Hp Hnd].
  apply elem_of_cons in Hin as [<-|Hin].
  - rewrite filter_cons_True by done. f_equal. by apply filter_id_none.
  - rewrite filter_cons_False.
    + by apply IH.
    + simpl. intros Heq. apply Hp. rewrite Heq.
      apply (list_elem_of_fmap_2 fst) in Hin. exact Hin.
Qed.

Lemma firings_unregister_other c i r :
  ~ inFlight c i r -> firings i (unregister c r) = firings i r.
Proof.
  intros Hno. destruct (connections r !! c) as [conn|] eqn:Hc;
    [|by rewrite unregister_absent].
  unfold firings. rewrite (resolved_unregister c r conn Hc), filter_app.
  rewrite (filter_id_none i (_ <$> _)); [by rewrite app_nil_r|].
  rewrite disconnected_keys. intros Hk%pending_keys. apply Hno. by exists conn.
Qed.

(** C1. Take a registry built by any sequence of its events and a call in
    flight on one of its connections. Whatever events follow, in whatever
    order (a response, a timeout or an unregistration, for this call or
    another, and new invokes; the connection is not registered anew while
    it is live), the continuation of the call fires exactly once if one of
    the three paths reaches the call, with the result of the first path
    that does, after which the call is pending nowhere; it has not fired
    and the call is still in flight if none reaches it. A response or a
    timeout that finds the entry removed leaves the registry as it is, and
    an unregistration fires nothing for a call that is not pending on its
    connection. *)
Theorem resolved_exactly_once (pre evs : list Event) (c : string) (i : nat) :
  let r := run pre empty in
  inFlight c i r ->
  Forall (fun e => ~ replaces c e) evs ->
  match firstReach c i evs with
  | Some res =>
      firings i (run evs r) = [res] /\ forall c', ~ inFlight c' i (run evs r)
  | None =>
      firings i (run evs r) = [] /\ inFlight c i (run evs r)
  end
  /\ (forall r' c' res,
        ~ inFlight c' i r' ->
        handleResponse c' i res r' = r'
        /\ handleTimeout c' i r' = r'
        /\ firings i (unregister c' r') = firings i r').
Proof.
  intros r Hin Hall. split.
  - assert (Hcons : consistent r) by (apply run_consistent, empty_consistent).
    clearbody r. revert r Hin Hcons.
    induction evs as [|e rest IH]; intros r Hin Hcons.
    + simpl. split; [|done]. unfold firings.
      rewrite filter_id_none; [done|]. by apply (pending_unresolved r Hcons c).
    + apply Forall_cons in Hall as [Hrepl Hall]. cbn [firstReach run].
      destruct (reaches c i e) as [res|] eqn:Hreach.
      * pose proof (reach_resolves c i e res r Hin Hreach) as Hres.
        apply (run_resolved_mono rest) in Hres.
        assert (Hfin : consistent (run rest (step e r)))
          by (by apply run_consistent, step_consistent).
        split.
        -- unfold firings.
           by rewrite (filter_id_once i res _ (resolved_once _ Hfin) Hres).
        -- intros c' Hin'. apply (pending_unresolved _ Hfin c' i Hin').
           apply (list_elem_of_fmap_2 fst) in Hres. exact Hres.
      * apply IH; [done| |by apply step_consistent].
        by apply unreached_stays.
  - intros r' c' res Hno. split; [|split].
    + by apply settle_absent.
    + by apply settle_absent.
    + by apply firings_unregister_other.
Qed.

(** A call to node-1 is in flight with correlation id 0; its timer
    expires, then the reply arrives, then the node disconnects: the
    continuation fired once, with TIMEOUT. *)
Lemma resolved_exactly_once_witness :
  firings 0
    (run [EvTimeout "conn-1" 0; EvResponse "conn-1" 0 (Ok "{}");
          EvUnregister "conn-1"]
       (run [EvRegister "conn-1" "node-1";
             EvInvoke 0 "node-1" "test.cmd" None 60000] empty))
  = [timedOut].
Proof.
  destruct (resolved_exactly_once
              [EvRegister "conn-1" "node-1";
               EvInvoke 0 "node-1" "test.cmd" None 60000]
              [EvTimeout "conn-1" 0; EvResponse "conn-1" 0 (Ok "{}");
               EvUnregister "conn-1"] "conn-1" 0%nat)
    as [[Honce _] _].
  - eexists. split; [vm_compute; reflexivity|]. vm_compute. by eexists.
  - repeat constructor; simpl; auto.
  - exact Honce.
Defined.

End NodeRegistryFacts.

(* ===================================================================== *)
(** * Further properties of the sliding-window limiter                    *)
(* ===================================================================== *)

Module RateLimiterMore.
Import RateLimiter RateLimiterFacts.

(** ** The loop of [prune], without any assumption on the bucket *)

Lemma expiredPrefix_le cutoff ts : (expiredPrefix cutoff ts <= length ts)%nat.
Proof.
  induction ts as [|t rest IH]; simpl; [lia|].
  destruct (t <=? cutoff); simpl; lia.
Qed.

Lemma expiredPrefix_take cutoff ts u :
  u ∈ take (expiredPrefix cutoff ts) ts -> u <= cutoff.
Proof.
  induction ts as [|t rest IH]; simpl; [by intros ?%elem_of_nil|].
  destruct (Z.leb_spec t cutoff); simpl; [|by intros ?%elem_of_nil].
  intros [->|Hu]%elem_of_cons; [lia|by apply IH].
Qed.

Lemma expiredPrefix_head cutoff ts t :
  drop (expiredPrefix cutoff ts) ts !! 0%nat = Some t -> cutoff < t.
Proof.
  induction ts as [|t' rest IH]; simpl; [done|].
  destruct (Z.leb_spec t' cutoff); simpl; [done|]. intros [= <-]. lia.
Qed.

Lemma expiredPrefix_drop cutoff ts :
  expiredPrefix cutoff (drop (expiredPrefix cutoff ts) ts) = 0%nat.
Proof.
  induction ts as [|t rest IH]; simpl; [done|].
  destruct (Z.leb_spec t cutoff); simpl; [done|].
  destruct (Z.leb_spec t cutoff); [lia|done].
Qed.

(** X1. Whatever the order of the bucket, [prune] cuts off a prefix of
    it: the timestamps removed are all at or before [now - windowMs], the
    first one kept, if any, is after it, and pruning again at the same
    time removes nothing more. Expired timestamps behind the first kept
    one stay. *)
Theorem prune_cuts_expired_prefix (l : SlidingWindowRateLimiter)
    (entry : BucketEntry) (now : Z) :
  exists removed,
    timestamps entry = removed ++ timestamps (prune l entry now)
    /\ (forall u, u ∈ removed -> u <= now - windowMs l)
    /\ (forall t, timestamps (prune l entry now) !! 0%nat = Some t ->
                  now - windowMs l < t)
    /\ prune l (prune l entry now) now = prune l entry now.
Proof.
  exists (take (expiredPrefix (now - windowMs l) (timestamps entry))
            (timestamps entry)).
  rewrite prune_timestamps. split; [by rewrite take_drop|]. split; [|split].
  - intros u. apply expiredPrefix_take.
  - intros t. apply expiredPrefix_head.
  - assert (Hext : forall e1 e2 : BucketEntry,
              timestamps e1 = timestamps e2 -> e1 = e2)
      by (intros [] []; simpl; congruence).
    apply Hext. rewrite (prune_timestamps l (prune l entry now)).
    rewrite !(prune_timestamps l entry), expiredPrefix_drop.
    by rewrite drop_0.
Qed.

(** ** Answers in terms of the pruned bucket *)

(** The pruned bucket of [key] at [now]; empty when the key has none. *)
Lemma pruned_bucket now key l :
  timestamps (prune l (mkEntry (bucketOf key l)) now)
  = drop (expiredPrefix (now - windowMs l) (bucketOf key l)) (bucketOf key l).
Proof. by rewrite prune_timestamps. Qed.

Lemma getRemaining_value now key l :
  0 < maxRequests l ->
  (getRemaining now key l).1
  = Z.max 0 (maxRequests l
             - Z.of_nat (length (timestamps (prune l (mkEntry (bucketOf key l)) now))))
  /\ bucketOf key (getRemaining now key l).2
     = timestamps (prune l (mkEntry (bucketOf key l)) now)
  /\ maxRequests (getRemaining now key l).2 = maxRequests l
  /\ windowMs (getRemaining now key l).2 = windowMs l.
Proof.
  intros Hpos. unfold bucketOf at 1 3.
  destruct (buckets l !! key) as [entry|] eqn:Hk.
  - rewrite (getRemaining_spec now key l entry Hpos Hk). simpl.
    rewrite bucketOf_insert, entry_eta. done.
  - unfold getRemaining. destruct (Z.leb_spec (maxRequests l) 0); [lia|].
    rewrite Hk. simpl. unfold bucketOf. rewrite Hk.
    unfold prune. simpl. repeat split; lia.
Qed.

Lemma tryAcquire_config now key l :
  maxRequests (tryAcquire now key l).2 = maxRequests l
  /\ windowMs (tryAcquire now key l).2 = windowMs l.
Proof. exact (step_config now (OpTryAcquire key) l). Qed.

(** X2. [tryAcquire] and [getRemaining] agree: at the same time and for
    the same key, an acquisition is granted exactly when the remaining
    count is positive. *)
Theorem acquire_iff_remaining (l : SlidingWindowRateLimiter) (now : Z)
    (key : string) :
  (tryAcquire now key l).1 = true <-> 0 < (getRemaining now key l).1.
Proof.
  destruct (Z_lt_le_dec 0 (maxRequests l)) as [Hpos|Hneg].
  - rewrite (tryAcquire_spec now key l Hpos). simpl.
    destruct (getRemaining_value now key l Hpos) as (-> & _).
    destruct (Z.leb_spec (maxRequests l)
      (Z.of_nat (length (timestamps (prune l (mkEntry (bucketOf key l)) now)))));
      simpl; split; intros; try done; lia.
  - unfold tryAcquire, getRemaining.
    destruct (Z.leb_spec (maxRequests l) 0); [|lia]. simpl.
    split; intros; [done | lia].
Qed.

Lemma expiredPrefix_snoc_zero cutoff ts x :
  expiredPrefix cutoff ts = 0%nat ->
  (ts = [] -> cutoff < x) ->
  expiredPrefix cutoff (ts ++ [x]) = 0%nat.
Proof.
  destruct ts as [|t rest]; simpl.
  - intros _ Hx. specialize (Hx eq_refl).
    by destruct (Z.leb_spec x cutoff); [lia|].
  - by destruct (t <=? cutoff).
Qed.

(** X3. With a positive window, an acquisition that is granted lowers the
    remaining count of its key by exactly one, and one that is refused
    leaves it at zero (both read at the time of the acquisition). *)
Theorem acquire_consumes_one (l : SlidingWindowRateLimiter) (now : Z)
    (key : string) :
  0 < windowMs l ->
  ((tryAcquire now key l).1 = true ->
   (getRemaining now key (tryAcquire now key l).2).1
   = (getRemaining now key l).1 - 1)
  /\ ((tryAcquire now key l).1 = false ->
      (getRemaining now key (tryAcquire now key l).2).1 = 0).
Proof.
  intros Hw.
  destruct (Z_lt_le_dec 0 (maxRequests l)) as [Hpos|Hneg].
  - destruct (tryAcquire_config now key l) as [Hm Hwin].
    assert (Hpos' : 0 < maxRequests (tryAcquire now key l).2) by lia.
    destruct (getRemaining_value now key _ Hpos') as (-> & _).
    destruct (getRemaining_value now key l Hpos) as (-> & _).
    rewrite Hm. rewrite !pruned_bucket, Hwin.
    rewrite (tryAcquire_spec now key l Hpos). cbn [fst snd].
    rewrite bucketOf_insert. cbn [timestamps]. rewrite pruned_bucket.
    set (c := now - windowMs l). set (ts := bucketOf key l).
    destruct (Z.leb_spec (maxRequests l)
                (Z.of_nat (length (drop (expiredPrefix c ts) ts)))) as [Hfull|Hroom];
      simpl.
    + split; [done|]. intros _. rewrite expiredPrefix_drop, drop_0. lia.
    + split; [|done]. intros _. rewrite expiredPrefix_snoc_zero.
      * rewrite drop_0, length_app. simpl. lia.
      * apply expiredPrefix_drop.
      * intros _. unfold c. lia.
  - unfold tryAcquire, getRemaining.
    destruct (Z.leb_spec (maxRequests l) 0); [|lia]. simpl.
    destruct (Z.leb_spec (maxRequests l) 0); [|lia]. done.
Qed.

(** The test "decreases as requests are made": with three requests per
    second, the first acquisition takes the remaining count from 3 to 2. *)
Lemma acquire_consumes_one_witness :
  (getRemaining 0 "k" (tryAcquire 0 "k" (new 3 1000)).2).1
  = (getRemaining 0 "k" (new 3 1000)).1 - 1.
Proof.
  destruct (acquire_consumes_one (new 3 1000) 0 "k") as [Hone _].
  - vm_compute. reflexivity.
  - apply Hone. vm_compute. reflexivity.
Defined.

(** ** Remaining quota on a limiter driven by its operations *)

Lemma filter_ext_in (P Q : Z -> Prop) `{!forall x, Decision (P x)}
    `{!forall x, Decision (Q x)} (ts : list Z) :
  (forall u, u ∈ ts -> (P u <-> Q u)) -> filter P ts = filter Q ts.
Proof.
  induction ts as [|t rest IH]; intros Hiff; [done|].
  assert (Hrest : filter P rest = filter Q rest).
  { apply IH. intros u Hu. apply Hiff. by right. }
  destruct (decide (P t)) as [Hp|Hp].
  - rewrite !filter_cons_True; [by rewrite Hrest| |done].
    apply Hiff; [left|done].
  - rewrite !filter_cons_False; [done| |done].
    intros Hq. apply Hp. apply Hiff; [left|done].
Qed.

Lemma length_filter_mono (P Q : Z -> Prop) `{!forall x, Decision (P x)}
    `{!forall x, Decision (Q x)} (ts : list Z) :
  (forall u, u ∈ ts -> P u -> Q u) ->
  (length (filter P ts) <= length (filter Q ts))%nat.
Proof.
  induction ts as [|t rest IH]; intros Himp; [done|].
  assert (Hrest : (length (filter P rest) <= length (filter Q rest))%nat).
  { apply IH. intros u Hu. apply Himp. by right. }
  rewrite !filter_cons.
  destruct (decide (P t)) as [Hp|Hp].
  - rewrite decide_True by (apply Himp; [left|done]). simpl. lia.
  - destruct (decide (Q t)); simpl; lia.
Qed.

(** On a limiter reached with a clock that does not go backwards, the
    pruned bucket at [now] is the part of the bucket inside the window. *)
Lemma pruned_is_window maxR w t0 sched now key :
  monotone t0 sched ->
  clockAfter t0 sched <= now ->
  let l := run sched (new maxR w) in
  timestamps (prune l (mkEntry (bucketOf key l)) now)
  = inWindow w now (bucketOf key l).
Proof.
  intros Hmono Hnow l.
  assert (Hord : bucketsInOrder (clockAfter t0 sched) l).
  { apply run_bucketsInOrder; [done|]. apply new_bucketsInOrder. }
  destruct (bucketOf_in_order _ l key Hord) as [Hchr Hbound].
  destruct (run_config sched (new maxR w)) as [_ Hw]. fold l in Hw.
  simpl in Hw. rewrite pruned_bucket, Hw.
  rewrite drop_expiredPrefix_chronological by done.
  unfold inWindow. apply filter_ext_in. intros u Hu.
  specialize (Hbound u Hu). split; [intros ?; lia | by intros [? _]].
Qed.

(** X4. On a limiter with a positive limit, driven by its operations with
    a clock that does not go backwards, [getRemaining] returns the limit
    minus the number of the key's recorded acquisitions that lie in the
    window from [now - windowMs] (excluded) to [now]; the answer is
    between 0 and the limit. *)
Theorem remaining_counts_window (maxR w t0 : Z) (sched : list (Z * Op))
    (now : Z) (key : string) :
  0 < maxR ->
  monotone t0 sched ->
  clockAfter t0 sched <= now ->
  let l := run sched (new maxR w) in
  (getRemaining now key l).1
  = maxR - Z.of_nat (length (inWindow w now (bucketOf key l)))
  /\ 0 <= (getRemaining now key l).1 <= maxR.
Proof.
  intros Hpos Hmono Hnow l.
  destruct (run_config sched (new maxR w)) as [Hm _]. fold l in Hm.
  simpl in Hm.
  assert (Hpos' : 0 < maxRequests l) by lia.
  destruct (getRemaining_value now key l Hpos') as (-> & _).
  pose proof (pruned_is_window maxR w t0 sched now key Hmono Hnow) as Hwin.
  fold l in Hwin. simpl in Hwin. rewrite Hwin, Hm.
  assert (Hlen : Z.of_nat (length (bucketOf key l)) <= maxR).
  { rewrite <- Hm. apply bucketOf_bounded; [done|].
    apply run_bucketsBounded. intros k e. unfold new. simpl.
    by rewrite lookup_empty. }
  pose proof (length_filter (fun t => now - w < t /\ t <= now) (bucketOf key l)).
  unfold inWindow. lia.
Qed.

(** The test "decreases as requests are made": after acquisitions at 0
    and 400 with three requests per second, one request remains at 800. *)
Lemma remaining_counts_window_witness :
  (getRemaining 800 "k"
     (run [(0, OpTryAcquire "k"); (400, OpTryAcquire "k")] (new 3 1000))).1
  = 3 - Z.of_nat (length (inWindow 1000 800
        (bucketOf "k"
           (run [(0, OpTryAcquire "k"); (400, OpTryAcquire "k")] (new 3 1000))))).
Proof.
  destruct (remaining_counts_window 3 1000 0
              [(0, OpTryAcquire "k"); (400, OpTryAcquire "k")] 800 "k")
    as [Hval _].
  - lia.
  - vm_compute. repeat split; discriminate.
  - vm_compute. discriminate.
  - exact Hval.
Defined.

Lemma expiredPrefix_all cutoff ts :
  (forall u, u ∈ ts -> u <= cutoff) -> expiredPrefix cutoff ts = length ts.
Proof.
  induction ts as [|t rest IH]; intros Hall; [done|]. simpl.
  destruct (Z.leb_spec t cutoff) as [_|Hgt].
  - f_equal. apply IH. intros u Hu. apply Hall. by right.
  - specialize (Hall t ltac:(left)). lia.
Qed.

(** X5. Once a whole window has passed since the last operation on the
    limiter, every key has its full quota back: [getRemaining] returns the
    limit (0 for a limit that is not positive) and [tryAcquire] is granted
    exactly when the limit is positive. The window has passed as soon as
    [now - windowMs] reaches the time of that last operation. *)
Theorem idle_window_restores_quota (maxR w t0 : Z) (sched : list (Z * Op))
    (now : Z) (key : string) :
  monotone t0 sched ->
  clockAfter t0 sched <= now - w ->
  let l := run sched (new maxR w) in
  (getRemaining now key l).1 = Z.max 0 maxR
  /\ (tryAcquire now key l).1 = bool_decide (0 < maxR).
Proof.
  intros Hmono Hnow l.
  destruct (run_config sched (new maxR w)) as [Hm Hw]. fold l in Hm, Hw.
  simpl in Hm, Hw.
  assert (Hord : bucketsInOrder (clockAfter t0 sched) l).
  { apply run_bucketsInOrder; [done|]. apply new_bucketsInOrder. }
  destruct (bucketOf_in_order _ l key Hord) as [_ Hbound].
  assert (Hgone : timestamps (prune l (mkEntry (bucketOf key l)) now) = []).
  { rewrite pruned_bucket, expiredPrefix_all; [apply drop_all|].
    intros u Hu. specialize (Hbound u Hu). lia. }
  destruct (Z_lt_le_dec 0 maxR) as [Hpos|Hneg].
  - assert (Hpos' : 0 < maxRequests l) by lia.
    destruct (getRemaining_value now key l Hpos') as (-> & _).
    rewrite (tryAcquire_spec now key l Hpos'), Hgone, Hm. simpl.
    rewrite bool_decide_eq_true_2 by done.
    destruct (Z.leb_spec maxR (Z.of_nat 0)); [lia|]. split; [lia|done].
  - unfold getRemaining, tryAcquire. rewrite Hm.
    destruct (Z.leb_spec maxR 0); [|lia]. simpl.
    rewrite bool_decide_eq_false_2 by lia. split; [lia|done].
Qed.

(** The test "recovers after window expiration", at the boundary: two
    acquisitions at 0 with a window of 1000; at 1000 both are back. *)
Lemma idle_window_restores_quota_witness :
  (getRemaining 1000 "k"
     (run [(0, OpTryAcquire "k"); (0, OpTryAcquire "k")] (new 2 1000))).1 = 2.
Proof.
  destruct (idle_window_restores_quota 2 1000 0
              [(0, OpTryAcquire "k"); (0, OpTryAcquire "k")] 1000 "k")
    as [Hval _].
  - vm_compute. repeat split; discriminate.
  - vm_compute. discriminate.
  - exact Hval.
Defined.

(** ** Keys do not interfere *)

Lemma step_other_key now o l key :
  ~ touches key o -> buckets (step now o l) !! key = buckets l !! key.
Proof.
  intros Hno. destruct o as [k|k|k|]; simpl in *.
  - destruct (Z_lt_le_dec 0 (maxRequests l)) as [Hpos|Hneg].
    + rewrite (tryAcquire_spec now k l Hpos). simpl.
      by rewrite lookup_insert_ne.
    + unfold tryAcquire. by destruct (Z.leb_spec (maxRequests l) 0); [|lia].
  - destruct (Z_lt_le_dec 0 (maxRequests l)) as [Hpos|Hneg].
    + destruct (buckets l !! k) as [entry|] eqn:Hk.
      * rewrite (getRemaining_spec now k l entry Hpos Hk). simpl.
        by rewrite lookup_insert_ne.
      * by rewrite getRemaining_unknown.
    + unfold getRemaining. by destruct (Z.leb_spec (maxRequests l) 0); [|lia].
  - by rewrite lookup_delete_ne.
  - done.
Qed.

(** The answers for a key depend on the configuration and on that key's
    bucket only. *)
Lemma answers_depend_on_bucket now key l1 l2 :
  maxRequests l1 = maxRequests l2 ->
  windowMs l1 = windowMs l2 ->
  buckets l1 !! key = buckets l2 !! key ->
  (tryAcquire now key l1).1 = (tryAcquire now key l2).1
  /\ (getRemaining now key l1).1 = (getRemaining now key l2).1.
Proof.
  intros Hm Hw Hb.
  assert (Hbucket : bucketOf key l1 = bucketOf key l2)
    by (unfold bucketOf; by rewrite Hb).
  destruct (Z_lt_le_dec 0 (maxRequests l1)) as [Hpos|Hneg].
  - assert (Hpos2 : 0 < maxRequests l2) by lia.
    rewrite (tryAcquire_spec now key l1 Hpos), (tryAcquire_spec now key l2 Hpos2).
    destruct (getRemaining_value now key l1 Hpos) as (-> & _).
    destruct (getRemaining_value now key l2 Hpos2) as (-> & _).
    rewrite !pruned_bucket, Hbucket, Hm, Hw. done.
  - unfold tryAcquire, getRemaining. rewrite <- Hm.
    by destruct (Z.leb_spec (maxRequests l1) 0); [|lia].
Qed.

(** X6. Keys are independent: a schedule of operations none of which is
    on [key] (nor a [resetAll]) leaves the bucket of [key] as it was, so
    afterwards [tryAcquire] and [getRemaining] answer for [key] what they
    would have answered before. *)
Theorem keys_are_independent (sched : list (Z * Op))
    (l : SlidingWindowRateLimiter) (key : string) :
  Forall (fun p => ~ touches key p.2) sched ->
  buckets (run sched l) !! key = buckets l !! key
  /\ (forall now,
        (tryAcquire now key (run sched l)).1 = (tryAcquire now key l).1
        /\ (getRemaining now key (run sched l)).1 = (getRemaining now key l).1).
Proof.
  intros Hall.
  assert (Hb : buckets (run sched l) !! key = buckets l !! key).
  { revert l. induction Hall as [|[t o] rest Hno _ IH]; intros l; [done|].
    simpl. rewrite IH. by apply step_other_key. }
  split; [exact Hb|]. intros now.
  destruct (run_config sched l) as [Hm Hw].
  by apply answers_depend_on_bucket.
Qed.

(** The test "tracks keys independently": exhausting user-a leaves
    user-b its acquisition. *)
Lemma keys_are_independent_witness :
  (tryAcquire 2 "user-b"
     (run [(0, OpTryAcquire "user-a"); (1, OpTryAcquire "user-a")] (new 1 1000))).1
  = (tryAcquire 2 "user-b" (new 1 1000)).1.
Proof.
  destruct (keys_are_independent
              [(0, OpTryAcquire "user-a"); (1, OpTryAcquire "user-a")]
              (new 1 1000) "user-b") as [_ Hans].
  - repeat constructor; simpl; discriminate.
  - apply (Hans 2).
Defined.

(** ** [reset] and [resetAll] *)

(** X7. [reset(key)] gives the key its full quota back at once, whatever
    its bucket held: [getRemaining] returns the limit (0 when the limit is
    not positive) and [tryAcquire] is granted exactly when the limit is
    positive; so does [resetAll()] for every key. [reset] leaves the
    buckets of the other keys alone, and on a key without bucket it
    changes nothing at all. *)
Theorem reset_restores_quota (l : SlidingWindowRateLimiter) (now : Z)
    (key : string) :
  (getRemaining now key (reset key l)).1 = Z.max 0 (maxRequests l)
  /\ (tryAcquire now key (reset key l)).1 = bool_decide (0 < maxRequests l)
  /\ (getRemaining now key (resetAll l)).1 = Z.max 0 (maxRequests l)
  /\ (tryAcquire now key (resetAll l)).1 = bool_decide (0 < maxRequests l)
  /\ (forall other, other <> key ->
        buckets (reset key l) !! other = buckets l !! other)
  /\ (buckets l !! key = None -> reset key l = l).
Proof.
  assert (Hfresh : forall l', maxRequests l' = maxRequests l ->
            buckets l' !! key = None ->
            (getRemaining now key l').1 = Z.max 0 (maxRequests l)
            /\ (tryAcquire now key l').1 = bool_decide (0 < maxRequests l)).
  { intros l' Hm Hk.
    destruct (Z_lt_le_dec 0 (maxRequests l)) as [Hpos|Hneg].
    - assert (Hpos' : 0 < maxRequests l') by lia.
      rewrite (tryAcquire_spec now key l' Hpos').
      unfold getRemaining, bucketOf. rewrite Hk, Hm.
      destruct (Z.leb_spec (maxRequests l) 0); [lia|]. simpl.
      unfold prune. simpl.
      destruct (Z.leb_spec (maxRequests l) (Z.of_nat 0)); [lia|].
      rewrite bool_decide_eq_true_2 by done. split; [lia|done].
    - unfold getRemaining, tryAcquire. rewrite Hm.
      destruct (Z.leb_spec (maxRequests l) 0); [|lia]. simpl.
      rewrite bool_decide_eq_false_2 by lia. split; [lia|done]. }
  destruct (Hfresh (reset key l)) as [Hr1 Hr2];
    [done | apply lookup_delete_eq |].
  destruct (Hfresh (resetAll l)) as [Ha1 Ha2];
    [done | apply lookup_empty |].
  repeat split; try done.
  - intros other Hne. unfold reset. simpl. by rewrite lookup_delete_ne.
  - intros Hk. unfold reset. rewrite delete_id by done. by destruct l.
Qed.

(** The test "reset on unknown key is a no-op". *)
Lemma reset_restores_quota_witness :
  reset "nonexistent" (new 5 1000) = new 5 1000.
Proof.
  destruct (reset_restores_quota (new 5 1000) 0 "nonexistent")
    as (_ & _ & _ & _ & _ & Hnoop).
  apply Hnoop. reflexivity.
Defined.

(** ** [getRemaining] is a pure query as far as admission goes *)

Lemma expiredPrefix_twice c1 c2 ts :
  c1 <= c2 ->
  drop (expiredPrefix c2 (drop (expiredPrefix c1 ts) ts))
       (drop (expiredPrefix c1 ts) ts)
  = drop (expiredPrefix c2 ts) ts.
Proof.
  intros Hle. induction ts as [|t rest IH]; [done|]. simpl.
  destruct (Z.leb_spec t c1) as [H1|H1]; simpl.
  - destruct (Z.leb_spec t c2); [|lia]. simpl. exact IH.
  - reflexivity.
Qed.

(** X8. A [getRemaining(key)] leaves no trace on what follows for that
    key: a later (or simultaneous) [tryAcquire] or [getRemaining] on the
    key gives the same answer and the same limiter as if the query had not
    been made. *)
Theorem remaining_query_leaves_no_trace (l : SlidingWindowRateLimiter)
    (now later : Z) (key : string) :
  now <= later ->
  tryAcquire later key (getRemaining now key l).2 = tryAcquire later key l
  /\ getRemaining later key (getRemaining now key l).2 = getRemaining later key l.
Proof.
  intros Hle.
  destruct (Z_lt_le_dec 0 (maxRequests l)) as [Hpos|Hneg].
  - destruct (buckets l !! key) as [entry|] eqn:Hk;
      [|by rewrite getRemaining_unknown].
    rewrite (getRemaining_spec now key l entry Hpos Hk). cbn [snd].
    set (l1 := set_buckets (<[key := prune l entry now]> (buckets l)) l).
    assert (Hpos1 : 0 < maxRequests l1) by done.
    assert (Hk1 : buckets l1 !! key = Some (prune l entry now))
      by (subst l1; simpl; apply lookup_insert_eq).
    assert (Hsame : timestamps (prune l1 (prune l entry now) later)
                    = timestamps (prune l entry later)).
    { rewrite !prune_timestamps. subst l1. simpl.
      apply expiredPrefix_twice. lia. }
    assert (Hext : forall e1 e2 : BucketEntry,
              timestamps e1 = timestamps e2 -> e1 = e2)
      by (intros [] []; simpl; congruence).
    split.
    + rewrite (tryAcquire_spec later key l1 Hpos1),
        (tryAcquire_spec later key l Hpos).
      unfold bucketOf. rewrite Hk1, Hk, !entry_eta, Hsame.
      subst l1. unfold set_buckets. simpl. by rewrite !insert_insert_eq.
    + rewrite (getRemaining_spec later key l1 _ Hpos1 Hk1),
        (getRemaining_spec later key l entry Hpos Hk).
      rewrite Hsame, (Hext _ _ Hsame).
      subst l1. unfold set_buckets. simpl. by rewrite !insert_insert_eq.
  - assert (Hnil : (getRemaining now key l).2 = l).
    { unfold getRemaining. by destruct (Z.leb_spec (maxRequests l) 0); [|lia]. }
    by rewrite Hnil.
Qed.

(** One acquisition at 0, a query at 500, an acquisition at 1000: the
    query changes nothing. *)
Lemma remaining_query_leaves_no_trace_witness :
  tryAcquire 1000 "k"
    (getRemaining 500 "k" (tryAcquire 0 "k" (new 1 1000)).2).2
  = tryAcquire 1000 "k" (tryAcquire 0 "k" (new 1 1000)).2.
Proof.
  destruct (remaining_query_leaves_no_trace
              (tryAcquire 0 "k" (new 1 1000)).2 500 1000 "k") as [Hacq _].
  - lia.
  - exact Hacq.
Defined.

(** ** The rate limit itself *)

Lemma grantedInv_later key t now l acc :
  t <= now -> grantedInv key t l acc -> grantedInv key now l acc.
Proof.
  intros Hle (Ha & Hc & Hb & Hf & Hd). repeat split; try done.
  - intros u Hu. specialize (Ha u Hu). lia.
  - intros u Hu. specialize (Hb u Hu). lia.
  - intros now' Hnow'. apply Hf. lia.
Qed.

Lemma grantedInv_cleared key t l :
  bucketOf key l = [] -> grantedInv key t l [].
Proof.
  intros Hnil. unfold grantedInv. rewrite Hnil. repeat split; try done.
  - intros u Hu. by apply elem_of_nil in Hu.
  - intros u Hu. by apply elem_of_nil in Hu.
  - intros T. unfold inWindow. simpl. lia.
Qed.

Lemma grantedInv_same_bucket key t l l' acc :
  bucketOf key l' = bucketOf key l ->
  maxRequests l' = maxRequests l ->
  windowMs l' = windowMs l ->
  grantedInv key t l acc -> grantedInv key t l' acc.
Proof.
  intros Hb Hm Hw. unfold grantedInv. by rewrite Hb, Hm, Hw.
Qed.

(** Pruning the bucket of [key] keeps the tie. *)
Lemma grantedInv_pruned key now l l' acc :
  grantedInv key now l acc ->
  bucketOf key l' = timestamps (prune l (mkEntry (bucketOf key l)) now) ->
  maxRequests l' = maxRequests l ->
  windowMs l' = windowMs l ->
  grantedInv key now l' acc.
Proof.
  intros (Ha & Hc & Hb & Hf & Hd) Hbucket Hm Hw.
  unfold grantedInv. rewrite Hbucket, Hm, Hw, pruned_bucket.
  repeat split; try done.
  - by apply chronological_drop.
  - intros u Hu. apply Hb. by apply elem_of_drop_elem in Hu.
  - intros now' Hnow'. rewrite drop_expiredPrefix_chronological by done.
    rewrite list_filter_filter_l by (intros x; lia). by apply Hf.
Qed.

(** A granted acquisition keeps the tie, and the limit in every window. *)
Lemma grantedInv_granted key now l l' acc :
  0 < maxRequests l ->
  grantedInv key now l acc ->
  Z.of_nat (length (timestamps (prune l (mkEntry (bucketOf key l)) now)))
    < maxRequests l ->
  bucketOf key l' = timestamps (prune l (mkEntry (bucketOf key l)) now) ++ [now] ->
  maxRequests l' = maxRequests l ->
  windowMs l' = windowMs l ->
  grantedInv key now l' (acc ++ [now]).
Proof.
  intros Hpos (Ha & Hc & Hb & Hf & Hd) Hroom Hbucket Hm Hw.
  assert (Hpruned : timestamps (prune l (mkEntry (bucketOf key l)) now)
                    = filter (fun x => now - windowMs l < x) acc).
  { rewrite pruned_bucket, drop_expiredPrefix_chronological by done.
    by apply Hf. }
  unfold grantedInv. rewrite Hbucket, Hm, Hw. repeat split.
  - intros u [Hu|Hu]%elem_of_app; [by apply Ha|].
    apply list_elem_of_singleton in Hu as ->. lia.
  - rewrite pruned_bucket. apply chronological_snoc.
    + by apply chronological_drop.
    + intros u Hu. apply Hb. by apply elem_of_drop_elem in Hu.
  - rewrite pruned_bucket. intros u [Hu|Hu]%elem_of_app.
    + apply Hb. by apply elem_of_drop_elem in Hu.
    + apply list_elem_of_singleton in Hu as ->. lia.
  - intros now' Hnow'. rewrite !filter_app. f_equal.
    rewrite Hpruned. by rewrite list_filter_filter_l by (intros x; lia).
  - intros T. unfold inWindow. rewrite filter_app, length_app.
    destruct (decide (T - windowMs l < now /\ now <= T)) as [Hin|Hout].
    + rewrite filter_cons_True by done. simpl.
      assert (Hsub : (length (filter (fun t : Z => (T - windowMs l < t /\ t <= T)%Z) acc)
                      <= length (filter (fun x : Z => (now - windowMs l < x)%Z) acc))%nat).
      { apply length_filter_mono. intros u Hu. lia. }
      rewrite <- Hpruned in Hsub. lia.
    + rewrite filter_cons_False by done. simpl.
      specialize (Hd T). unfold inWindow in Hd. lia.
Qed.

Lemma step_grantedInv key t now o l acc :
  t <= now ->
  grantedInv key t l acc ->
  grantedInv key now (step now o l) (grantedStep key now o l acc).
Proof.
  intros Hle Hinv. apply (grantedInv_later key t now l acc Hle) in Hinv.
  destruct (step_config now o l) as [Hm Hw].
  destruct o as [k|k|k|]; simpl in *.
  - destruct (decide (k = key)) as [->|Hne].
    + destruct (Z_lt_le_dec 0 (maxRequests l)) as [Hpos|Hneg].
      * rewrite (tryAcquire_spec now key l Hpos) in Hm, Hw |- *. cbn [fst snd].
        destruct (Z.leb_spec (maxRequests l)
          (Z.of_nat (length (timestamps (prune l (mkEntry (bucketOf key l)) now)))));
          simpl.
        -- apply (grantedInv_pruned key now l); try done.
           by rewrite bucketOf_insert.
        -- apply (grantedInv_granted key now l); try done.
           by rewrite bucketOf_insert.
      * unfold tryAcquire. by destruct (Z.leb_spec (maxRequests l) 0); [|lia].
    + apply (grantedInv_same_bucket key now l); try done.
      unfold bucketOf.
      pose proof (step_other_key now (OpTryAcquire k) l key Hne) as Hother.
      simpl in Hother. by rewrite Hother.
  - destruct (decide (k = key)) as [->|Hne].
    + destruct (Z_lt_le_dec 0 (maxRequests l)) as [Hpos|Hneg].
      * destruct (getRemaining_value now key l Hpos) as (_ & Hb & _).
        by apply (grantedInv_pruned key now l).
      * unfold getRemaining. by destruct (Z.leb_spec (maxRequests l) 0); [|lia].
    + apply (grantedInv_same_bucket key now l); try done.
      unfold bucketOf.
      pose proof (step_other_key now (OpGetRemaining k) l key Hne) as Hother.
      simpl in Hother. by rewrite Hother.
  - destruct (decide (k = key)) as [->|Hne].
    + apply grantedInv_cleared.
      unfold bucketOf, reset. simpl. by rewrite lookup_delete_eq.
    + apply (grantedInv_same_bucket key now l); try done.
      unfold bucketOf, reset. simpl. by rewrite lookup_delete_ne.
  - apply grantedInv_cleared.
    unfold bucketOf, resetAll. simpl. by rewrite lookup_empty.
Qed.

Lemma run_grantedInv key sched : forall t l acc,
  monotone t sched ->
  grantedInv key t l acc ->
  grantedInv key (clockAfter t sched) (run sched l) (granted key sched l acc).
Proof.
  induction sched as [|[now o] rest IH]; intros t l acc Hmono Hinv; [done|].
  destruct Hmono as [Hle Hrest]. simpl. apply IH; [done|].
  by apply (step_grantedInv key t).
Qed.

(** X9. The limit is kept: on a limiter driven by its operations with a
    clock that does not go backwards, the acquisitions granted for a key
    since its bucket was last reset never number more than [maxRequests]
    (none when the limit is not positive) within any window, that is,
    within any interval from [T - windowMs] (excluded) to [T]. *)
Theorem granted_within_limit (maxR w t0 : Z) (sched : list (Z * Op))
    (key : string) (T : Z) :
  monotone t0 sched ->
  Z.of_nat (length (inWindow w T (granted key sched (new maxR w) [])))
  <= Z.max 0 maxR.
Proof.
  intros Hmono.
  assert (Hinv : grantedInv key t0 (new maxR w) []).
  { apply grantedInv_cleared. unfold bucketOf, new. simpl.
    by rewrite lookup_empty. }
  destruct (run_grantedInv key sched t0 (new maxR w) [] Hmono Hinv)
    as (_ & _ & _ & _ & Hd).
  destruct (run_config sched (new maxR w)) as [Hm Hw].
  rewrite Hm, Hw in Hd. exact (Hd T).
Qed.

(** The test "uses sliding window": of the acquisitions asked at 0, 400,
    800, 800, 1001 and 1001 with three requests per second, those granted
    in the window ending at 1001 are at most three. *)
Lemma granted_within_limit_witness :
  Z.of_nat (length (inWindow 1000 1001
    (granted "k"
       [(0, OpTryAcquire "k"); (400, OpTryAcquire "k"); (800, OpTryAcquire "k");
        (800, OpTryAcquire "k"); (1001, OpTryAcquire "k");
        (1001, OpTryAcquire "k")] (new 3 1000) [])))
  <= Z.max 0 3.
Proof.
  apply (granted_within_limit 3 1000 0
           [(0, OpTryAcquire "k"); (400, OpTryAcquire "k"); (800, OpTryAcquire "k");
            (800, OpTryAcquire "k"); (1001, OpTryAcquire "k");
            (1001, OpTryAcquire "k")] "k" 1001).
  vm_compute. repeat split; discriminate.
Defined.

(** ** Which keys hold a bucket *)

Lemma step_dom now o l :
  0 < maxRequests l -> ~ clears o ->
  dom (buckets (step now o l))
  = dom (buckets l) ∪ acquiredKeys [(now, o)].
Proof.
  intros Hpos Hno. destruct o as [k|k|k|]; simpl in *; try done.
  - rewrite (tryAcquire_spec now k l Hpos). simpl.
    rewrite dom_insert_L, (right_id_L ∅ (∪)). apply (comm_L (∪)).
  - rewrite (right_id_L ∅ (∪)).
    destruct (buckets l !! k) as [entry|] eqn:Hk.
    + rewrite (getRemaining_spec now k l entry Hpos Hk). simpl.
      rewrite dom_insert_L. apply subseteq_union_1_L.
      apply singleton_subseteq_l, elem_of_dom. by exists entry.
    + by rewrite getRemaining_unknown.
Qed.

(** X15. Buckets are dropped by [reset] and [resetAll] only. On a limiter
    with a positive limit, along any schedule of [tryAcquire] and
    [getRemaining], the keys that hold a bucket afterwards are the ones
    that held one before together with every key [tryAcquire] was called
    with: [getRemaining] creates no bucket, and a key keeps its bucket,
    possibly empty, after all its timestamps have expired. *)
Theorem buckets_are_never_dropped (sched : list (Z * Op))
    (l : SlidingWindowRateLimiter) :
  0 < maxRequests l ->
  Forall (fun p => ~ clears p.2) sched ->
  dom (buckets (run sched l)) = dom (buckets l) ∪ acquiredKeys sched
  /\ (forall key, key ∈ acquiredKeys sched ->
        is_Some (buckets (run sched l) !! key)).
Proof.
  intros Hpos Hall.
  assert (Hdom : dom (buckets (run sched l))
                 = dom (buckets l) ∪ acquiredKeys sched).
  { revert l Hpos. induction Hall as [|[t o] rest Hno _ IH]; intros l Hpos.
    - simpl. by rewrite (right_id_L ∅ (∪)).
    - cbn [run]. rewrite IH by (by destruct (step_config t o l) as [-> _]).
      rewrite (step_dom t o l Hpos Hno). simpl.
      destruct o; rewrite (right_id_L ∅ (∪)); try done.
      by rewrite (assoc_L (∪)). }
  split; [exact Hdom|]. intros key Hkey.
  apply elem_of_dom. rewrite Hdom. apply elem_of_union. by right.
Qed.

(** One acquisition for "k" at 0 with a window of 10: at 5000, long after
    it expired, a query leaves the bucket of "k" in place, empty. *)
Lemma buckets_are_never_dropped_witness :
  is_Some (buckets (run [(0, OpTryAcquire "k"); (5000, OpGetRemaining "k")]
                      (new 1 10)) !! "k").
Proof.
  destruct (buckets_are_never_dropped
              [(0, OpTryAcquire "k"); (5000, OpGetRemaining "k")] (new 1 10))
    as [_ Hkeep].
  - vm_compute. reflexivity.
  - repeat constructor; simpl; auto.
  - apply Hkeep. simpl. apply elem_of_union. left.
    by apply elem_of_singleton.
Defined.

End RateLimiterMore.

(* ===================================================================== *)
(** * Further properties of the circuit breaker                           *)
(* ===================================================================== *)

Module CircuitBreakerMore.
Import CircuitBreaker CircuitBreakerFacts.

(** ** Recovery through HALF_OPEN *)

(** X10. Once [resetTimeoutMs] has elapsed since opening, the next call
    to an OPEN breaker with a free probe slot moves it to HALF_OPEN
    (telling the observer, if any), is counted as a probe and reaches
    [fn]. If that probe succeeds the breaker is CLOSED with the
    consecutive-failure and probe counts at zero; if it fails the breaker
    is OPEN again with the open timestamp set to the time of the failure,
    so that calls are rejected for another [resetTimeoutMs] from then. *)
Theorem timeout_admits_probe {W : Type} (cfg : CircuitBreakerConfig W)
    (now later : Z) (fn : W -> W) (s : Sys W) :
  state s.1 = OPEN ->
  resetTimeoutMs cfg <= elapsedSinceOpen now s.1 ->
  halfOpenInflight s.1 < halfOpenMaxAttempts cfg ->
  let s1 := (execute_begin cfg now fn s).2 in
  (execute_begin cfg now fn s).1 = Returned tt
  /\ state s1.1 = HALF_OPEN
  /\ halfOpenInflight s1.1 = halfOpenInflight s.1 + 1
  /\ s1.2 = fn (match onStateChange cfg with
               | Some f => f OPEN HALF_OPEN s.2
               | None => s.2
               end)
  /\ (state (onSuccess cfg s1).1 = CLOSED
      /\ consecutiveFailures (onSuccess cfg s1).1 = 0
      /\ halfOpenInflight (onSuccess cfg s1).1 = 0)
  /\ (state (onFailure cfg later s1).1 = OPEN
      /\ openedAtMs (onFailure cfg later s1).1 = Some later
      /\ forall now' fn',
           later <= now' < later + resetTimeoutMs cfg ->
           execute_begin cfg now' fn' (onFailure cfg later s1)
           = (Thrown (mkCircuitOpenError OPEN
                        (resetTimeoutMs cfg - (now' - later))),
              onFailure cfg later s1)).
Proof.
  intros Hst Hripe Hfree s1.
  destruct s as [b w]. destruct b as [st f su cf lf oa hi].
  simpl in Hst, Hripe, Hfree. subst st.
  assert (Hbegin : execute_begin cfg now fn
                     (mkBreaker OPEN f su cf lf oa hi, w)
                   = (Returned tt,
                      (mkBreaker HALF_OPEN f su cf lf oa (hi + 1),
                       fn (match onStateChange cfg with
                           | Some g => g OPEN HALF_OPEN w
                           | None => w
                           end)))).
  { unfold_gates. simpl in *.
    destruct (Z.leb_spec (resetTimeoutMs cfg) (now - default now oa)); [|lia].
    simpl. destruct (Z.leb_spec (halfOpenMaxAttempts cfg) hi); [lia|].
    reflexivity. }
  subst s1. rewrite Hbegin. cbn [fst snd].
  split; [done|]. split; [done|]. split; [done|]. split; [done|].
  split; [done|]. split; [done|]. split; [done|].
  intros now' fn' Hnow'.
  rewrite execute_begin_open_early.
  - unfold elapsedSinceOpen. reflexivity.
  - reflexivity.
  - unfold elapsedSinceOpen. simpl. lia.
Qed.

(** The tests "success transitions back to CLOSED" and "failure
    transitions back to OPEN": threshold 1, timeout 5000, opened at 0,
    probed at 5000. *)
Lemma timeout_admits_probe_witness :
  state (onSuccess (@mkConfig nat 1 5000 2 None)
           (execute_begin (@mkConfig nat 1 5000 2 None) 5000 counting
              (mkBreaker OPEN 1 0 1 (Some 0) (Some 0) 0, 0%nat)).2).1 = CLOSED
  /\ state (onFailure (@mkConfig nat 1 5000 2 None) 5001
              (execute_begin (@mkConfig nat 1 5000 2 None) 5000 counting
                 (mkBreaker OPEN 1 0 1 (Some 0) (Some 0) 0, 0%nat)).2).1 = OPEN.
Proof.
  destruct (timeout_admits_probe (@mkConfig nat 1 5000 2 None) 5000 5001
              counting (mkBreaker OPEN 1 0 1 (Some 0) (Some 0) 0, 0%nat))
    as (_ & _ & _ & _ & (Hclosed & _) & (Hopen & _)).
  - reflexivity.
  - vm_compute. discriminate.
  - vm_compute. reflexivity.
  - split; [exact Hclosed | exact Hopen].
Defined.

(** ** What a rejection does *)

(** X11. Every [CircuitOpenError] thrown by [execute] reports the state
    OPEN and a retry-after value that is not negative, and is never thrown
    by a CLOSED breaker. The rejected call is not counted: the totals, the
    consecutive-failure count, the timestamps and the probe count are as
    before, and the breaker is left as it was, or moved from OPEN to
    HALF_OPEN when the reset timeout had elapsed but no probe slot was
    free. *)
Theorem rejection_is_not_counted {W : Type} (cfg : CircuitBreakerConfig W)
    (now : Z) (fn : W -> W) (s s' : Sys W) (e : CircuitOpenError) :
  execute_begin cfg now fn s = (Thrown e, s') ->
  err_state e = OPEN
  /\ 0 <= retryAfterMs e
  /\ state s.1 <> CLOSED
  /\ failures s'.1 = failures s.1
  /\ successes s'.1 = successes s.1
  /\ consecutiveFailures s'.1 = consecutiveFailures s.1
  /\ lastFailureMs s'.1 = lastFailureMs s.1
  /\ openedAtMs s'.1 = openedAtMs s.1
  /\ halfOpenInflight s'.1 = halfOpenInflight s.1
  /\ (s' = s
      \/ (state s.1 = OPEN
          /\ resetTimeoutMs cfg <= elapsedSinceOpen now s.1
          /\ halfOpenMaxAttempts cfg <= halfOpenInflight s.1
          /\ s' = transition cfg HALF_OPEN s)).
Proof.
  destruct s as [b w]. destruct b as [st f su cf lf oa hi].
  unfold_gates. simpl.
  destruct st; simpl; case_leb; intros [= <- <-]; simpl;
    repeat split; try done; try lia; try (by left).
  right. simpl. repeat split; try done; lia.
Qed.

(** The test "does not call the wrapped function while open": the
    rejected call leaves the failure total at 1. *)
Lemma rejection_is_not_counted_witness :
  failures (execute_begin (@mkConfig nat 1 10000 2 None) 10 counting
              (mkBreaker OPEN 1 0 1 (Some 0) (Some 0) 0, 0%nat)).2.1 = 1.
Proof.
  destruct (rejection_is_not_counted (@mkConfig nat 1 10000 2 None) 10 counting
              (mkBreaker OPEN 1 0 1 (Some 0) (Some 0) 0, 0%nat)
              (mkBreaker OPEN 1 0 1 (Some 0) (Some 0) 0, 0%nat)
              (mkCircuitOpenError OPEN 9990))
    as (_ & _ & _ & Hf & _).
  - vm_compute. reflexivity.
  - exact Hf.
Defined.

(** ** The statistics *)

Section Stats.
Context {W : Type}.
Implicit Types (cfg : CircuitBreakerConfig W) (s : Sys W).

Lemma step_stats cfg now o s :
  failures (step cfg now o s).1
  = failures s.1 + rejectedCount [(now, o)]
  /\ successes (step cfg now o s).1
     = successes s.1 + fulfilledCount [(now, o)]
  /\ lastFailureMs (step cfg now o s).1
     = lastRejectedAt (lastFailureMs s.1) [(now, o)]
  /\ consecutiveFailures (step cfg now o s).1
     = streak (consecutiveFailures s.1) [(now, o)].
Proof.
  destruct s as [b w]. destruct b as [st f su cf lf oa hi].
  destruct o as [fn| | |]; simpl.
  - unfold_gates. simpl. destruct st; simpl; case_leb; repeat split; lia.
  - unfold onSuccess. simpl. destruct st; simpl; repeat split; lia.
  - unfold onFailure. simpl. destruct st; simpl; case_leb; repeat split; lia.
  - repeat split; lia.
Qed.

Lemma run_stats cfg sched : forall s,
  failures (run cfg sched s).1 = failures s.1 + rejectedCount sched
  /\ successes (run cfg sched s).1 = successes s.1 + fulfilledCount sched
  /\ lastFailureMs (run cfg sched s).1 = lastRejectedAt (lastFailureMs s.1) sched
  /\ consecutiveFailures (run cfg sched s).1
     = streak (consecutiveFailures s.1) sched.
Proof.
  induction sched as [|[now o] rest IH]; intros s.
  - simpl. repeat split; lia.
  - cbn [run]. destruct (IH (step cfg now o s)) as (Hf & Hs & Hl & Hc).
    destruct (step_stats cfg now o s) as (Hf1 & Hs1 & Hl1 & Hc1).
    rewrite Hf, Hs, Hl, Hc, Hf1, Hs1, Hl1, Hc1.
    destruct o; simpl; repeat split; lia.
Qed.

End Stats.

(** X12. The statistics are exact, whatever the interleaving of calls,
    settlements and resets on a new breaker: [getStats] reports as
    [failures] the number of guarded calls that rejected, as [successes]
    the number that fulfilled, as [lastFailureMs] the time of the last
    rejection ([null] when there was none) and as [consecutiveFailures]
    the number of rejections since the last fulfilment or [reset]. Calls
    turned away by the breaker count in none of them. *)
Theorem stats_are_exact {W : Type} (cfg : CircuitBreakerConfig W)
    (sched : list (Z * Op W)) (w : W) :
  let stats := getStats (run cfg sched (initial, w)) in
  stats_failures stats = rejectedCount sched
  /\ stats_successes stats = fulfilledCount sched
  /\ stats_lastFailureMs stats = lastRejectedAt None sched
  /\ stats_consecutiveFailures stats = streak 0 sched
  /\ stats_state stats = getState (run cfg sched (initial, w)).
Proof.
  destruct (run_stats cfg sched (initial, w)) as (Hf & Hs & Hl & Hc).
  simpl in *. rewrite Hf, Hs, Hl, Hc. repeat split; lia.
Qed.

(** ** What the observer sees *)

Lemma chained_snoc from log a b :
  chained from log -> pathEnd from log = a -> a <> b ->
  chained from (log ++ [(a, b)]).
Proof.
  revert from. induction log as [|[x y] rest IH]; intros from Hch Hend Hne.
  - simpl in *. subst. done.
  - destruct Hch as (Hx & Hxy & Hrest). simpl in Hend. simpl.
    split; [done|]. split; [done|]. by apply IH.
Qed.

Lemma pathEnd_snoc from log a b :
  pathEnd from (log ++ [(a, b)]) = b.
Proof.
  revert from. induction log as [|[x y] rest IH]; intros from; [done|].
  simpl. apply IH.
Qed.

(** A step other than [reset] makes no state change or a legal one. *)
Lemma step_change_legal {W : Type} (cfg : CircuitBreakerConfig W) now o
    (b : Breaker) (w : W) :
  ~ isReset o ->
  Forall legal (stateChange b (step cfg now o (b, w)).1).
Proof.
  intros Hno. destruct b as [st f su cf lf oa hi]. unfold legal.
  assert (Hone : forall p : CircuitState * CircuitState,
            (p = (CLOSED, OPEN) \/ p = (OPEN, HALF_OPEN)
             \/ p = (HALF_OPEN, CLOSED) \/ p = (HALF_OPEN, OPEN)) ->
            Forall (fun p => p = (CLOSED, OPEN) \/ p = (OPEN, HALF_OPEN)
                             \/ p = (HALF_OPEN, CLOSED) \/ p = (HALF_OPEN, OPEN)) [p])
    by (intros p Hp; by constructor).
  destruct o as [fn| | |]; simpl in *.
  - unfold_gates. simpl. unfold stateChange.
    destruct st; simpl; case_leb; first [apply Forall_nil_2 | apply Hone; tauto].
  - unfold onSuccess, stateChange. simpl.
    destruct st; simpl; first [apply Forall_nil_2 | apply Hone; tauto].
  - unfold onFailure, stateChange. simpl.
    destruct st; simpl; case_leb; first [apply Forall_nil_2 | apply Hone; tauto].
  - done.
Qed.

Lemma stateChange_cases (b b' : Breaker) :
  (state b = state b' /\ stateChange b b' = [])
  \/ (state b <> state b' /\ stateChange b b' = [(state b, state b')]).
Proof.
  unfold stateChange. destruct (decide (state b = state b')); [by left|by right].
Qed.

Lemma step_log cfg_log now o (b : Breaker) log :
  onStateChange cfg_log = Some recorder ->
  quiet o ->
  (step cfg_log now o (b, log)).2
  = log ++ (if decide (isReset o) then []
            else stateChange b (step cfg_log now o (b, log)).1).
Proof.
  intros Hobs Hquiet. destruct o as [fn| | |].
  - rewrite decide_False by (simpl; tauto).
    apply step_observed; [done|done|]. intros fn' [= <-]. exact Hquiet.
  - rewrite decide_False by (simpl; tauto).
    apply step_observed; [done|done|]. intros fn' [=].
  - rewrite decide_False by (simpl; tauto).
    apply step_observed; [done|done|]. intros fn' [=].
  - rewrite decide_True by done. simpl. by rewrite app_nil_r.
Qed.

Lemma run_legal cfg_log sched : forall (b : Breaker) log,
  onStateChange cfg_log = Some recorder ->
  Forall (fun p => quiet p.2) sched ->
  Forall legal log ->
  Forall legal (run cfg_log sched (b, log)).2.
Proof.
  induction sched as [|[now o] rest IH]; intros b log Hobs Hquiet Hlog; [done|].
  apply Forall_cons in Hquiet as [Hq Hquiet]. simpl in Hq. cbn [run].
  destruct (step cfg_log now o (b, log)) as [b' log'] eqn:Hstep.
  apply IH; [done|done|].
  pose proof (step_log cfg_log now o b log Hobs Hq) as Hlog'.
  rewrite Hstep in Hlog'. simpl in Hlog'. rewrite Hlog'.
  apply Forall_app. split; [done|].
  destruct (decide (isReset o)) as [|Hno]; [constructor|].
  pose proof (step_change_legal cfg_log now o b log Hno) as Hlegal.
  by rewrite Hstep in Hlegal.
Qed.

Lemma run_path cfg_log sched : forall (b : Breaker) log,
  onStateChange cfg_log = Some recorder ->
  Forall (fun p => quiet p.2) sched ->
  Forall (fun p => ~ isReset p.2) sched ->
  chained CLOSED log -> pathEnd CLOSED log = state b ->
  chained CLOSED (run cfg_log sched (b, log)).2
  /\ pathEnd CLOSED (run cfg_log sched (b, log)).2
     = state (run cfg_log sched (b, log)).1.
Proof.
  induction sched as [|[now o] rest IH];
    intros b log Hobs Hquiet Hnoreset Hch Hend; [done|].
  apply Forall_cons in Hquiet as [Hq Hquiet].
  apply Forall_cons in Hnoreset as [Hno Hnoreset]. simpl in Hq, Hno.
  cbn [run].
  pose proof (step_log cfg_log now o b log Hobs Hq) as Hlog'.
  rewrite decide_False in Hlog' by done.
  destruct (step cfg_log now o (b, log)) as [b' log'] eqn:Hstep.
  simpl in Hlog'. subst log'.
  destruct (stateChange_cases b b') as [[Hsame ->]|[Hdiff ->]].
  - rewrite app_nil_r. apply IH; try done. by rewrite <- Hsame.
  - apply IH; try done.
    + by apply chained_snoc.
    + apply pathEnd_snoc.
Qed.

(** X13. What a recording observer has seen. Along any schedule on a new
    breaker whose guarded functions leave the log alone, every pair
    logged is one of CLOSED to OPEN, OPEN to HALF_OPEN, HALF_OPEN to
    CLOSED and HALF_OPEN to OPEN: the observer is never called for a step
    that stays in place. If the schedule has no [reset], the log is
    moreover the path of the breaker: it starts at CLOSED, each pair
    starts where the one before ended, and it ends at the current
    state. *)
Theorem observer_log_is_path
    (cfg : CircuitBreakerConfig (list (CircuitState * CircuitState)))
    (sched : list (Z * Op (list (CircuitState * CircuitState)))) :
  onStateChange cfg = Some recorder ->
  Forall (fun p => quiet p.2) sched ->
  let s := run cfg sched (initial, []) in
  Forall legal s.2
  /\ (Forall (fun p => ~ isReset p.2) sched ->
      chained CLOSED s.2 /\ pathEnd CLOSED s.2 = state s.1).
Proof.
  intros Hobs Hquiet s. split.
  - apply run_legal; [done|done|constructor].
  - intros Hnoreset. by apply run_path.
Qed.

(** The test "fires for full lifecycle": one failure, then a successful
    probe after the timeout; the observer saw CLOSED to OPEN, OPEN to
    HALF_OPEN, HALF_OPEN to CLOSED, a path that ends at the current
    state. *)
Lemma observer_log_is_path_witness :
  pathEnd CLOSED
    (run (@mkConfig (list (CircuitState * CircuitState)) 1 5000 2 (Some recorder))
       [(0, OpExecute id); (0, OpRejected); (5000, OpExecute id);
        (5000, OpFulfilled)] (initial, [])).2
  = state
      (run (@mkConfig (list (CircuitState * CircuitState)) 1 5000 2 (Some recorder))
         [(0, OpExecute id); (0, OpRejected); (5000, OpExecute id);
          (5000, OpFulfilled)] (initial, [])).1.
Proof.
  destruct (observer_log_is_path
              (@mkConfig (list (CircuitState * CircuitState)) 1 5000 2 (Some recorder))
              [(0, OpExecute id); (0, OpRejected); (5000, OpExecute id);
               (5000, OpFulfilled)]) as [_ Hpath].
  - reflexivity.
  - repeat constructor.
  - destruct Hpath as [_ Hend].
    + repeat constructor; simpl; auto.
    + exact Hend.
Defined.

(** ** Sequential use *)

Lemma execute_at_rest {W : Type} (cfg : CircuitBreakerConfig W)
    now later fn ok (s : Sys W) :
  1 <= halfOpenMaxAttempts cfg ->
  state s.1 <> HALF_OPEN -> halfOpenInflight s.1 = 0 ->
  state (execute cfg now later fn ok s).2.1 <> HALF_OPEN
  /\ halfOpenInflight (execute cfg now later fn ok s).2.1 = 0
  /\ (forall e, (execute cfg now later fn ok s).1 = Thrown e ->
        state s.1 = OPEN
        /\ elapsedSinceOpen now s.1 < resetTimeoutMs cfg
        /\ retryAfterMs e = resetTimeoutMs cfg - elapsedSinceOpen now s.1
        /\ (execute cfg now later fn ok s).2 = s).
Proof.
  intros Hmax Hst Hzero. destruct s as [b w].
  destruct b as [st f su cf lf oa hi]. simpl in Hst, Hzero. subst hi.
  unfold execute. unfold_gates. unfold onSuccess, onFailure, transition. simpl.
  destruct st; [| |done]; simpl; case_leb; destruct ok; simpl; case_leb;
    try (exfalso; lia);
    (split; [done|]); (split; [done|]);
    intros e He; try discriminate He;
    injection He as <-; simpl; repeat split; first [done | lia].
Qed.

(** X14. In sequential use, where every call is awaited before the next
    operation, a breaker with at least one probe slot is never left
    HALF_OPEN and never left with a probe counted in flight. So the only
    rejection it then gives is the one of an OPEN breaker whose timeout
    has not elapsed, with a retry-after value that is positive, and that
    rejection changes nothing. *)
Theorem sequential_use_rests {W : Type} (cfg : CircuitBreakerConfig W)
    (ops : list (SeqOp W)) (w : W) :
  1 <= halfOpenMaxAttempts cfg ->
  let s := runSeq cfg ops (initial, w) in
  state s.1 <> HALF_OPEN
  /\ halfOpenInflight s.1 = 0
  /\ (forall now later fn ok e,
        (execute cfg now later fn ok s).1 = Thrown e ->
        state s.1 = OPEN
        /\ 0 < retryAfterMs e
        /\ (execute cfg now later fn ok s).2 = s).
Proof.
  intros Hmax s.
  assert (Hrest : forall s0 : Sys W,
            state s0.1 <> HALF_OPEN /\ halfOpenInflight s0.1 = 0 ->
            state (runSeq cfg ops s0).1 <> HALF_OPEN
            /\ halfOpenInflight (runSeq cfg ops s0).1 = 0).
  { clear s. induction ops as [|[now later fn ok|] rest IH]; intros s0 Hinv;
      [done| |].
    - cbn [runSeq]. destruct Hinv as [Hst Hz].
      destruct (execute_at_rest cfg now later fn ok s0 Hmax Hst Hz)
        as (Hst' & Hz' & _).
      by apply IH.
    - cbn [runSeq]. by apply IH. }
  assert (Hinit : state (initial, w).1 <> HALF_OPEN
                  /\ halfOpenInflight (initial, w).1 = 0)
    by (split; [discriminate | reflexivity]).
  destruct (Hrest (initial, w) Hinit) as [Hst Hz].
  split; [exact Hst|]. split; [exact Hz|].
  intros now later fn ok e Hthrown.
  destruct (execute_at_rest cfg now later fn ok s Hmax Hst Hz) as (_ & _ & Hrej).
  destruct (Hrej e Hthrown) as (Hopen & Hearly & Hretry & Hsame).
  split; [exact Hopen|]. split; [lia | exact Hsame].
Qed.

(** The test "rejects immediately with CircuitOpenError": one awaited
    failure with threshold 1, then a call 10 ms later. *)
Lemma sequential_use_rests_witness :
  state (runSeq (@mkConfig nat 1 10000 2 None)
           [Await 0 0 counting false] (initial, 0%nat)).1 <> HALF_OPEN
  /\ halfOpenInflight
       (runSeq (@mkConfig nat 1 10000 2 None)
          [Await 0 0 counting false] (initial, 0%nat)).1 = 0.
Proof.
  destruct (sequential_use_rests (@mkConfig nat 1 10000 2 None)
              [Await 0 0 counting false] 0%nat) as (Hst & Hz & _).
  - vm_compute. discriminate.
  - split; [exact Hst | exact Hz].
Defined.

End CircuitBreakerMore.
